(** * airbnb-job: the careers scraper and its daily mail

    A shallow embedding of [main.go]: the pagination loop of [main], the
    title filter inside the [Each] callback and [sendDailyJobEmail].

    Go strings are byte sequences, modelled as [list ascii].  The pieces of
    the Go standard library that the program calls ([strings.Contains],
    [strings.TrimSpace] with its UTF-8 decoding, [fmt.Sprintf] with [%s] and
    [%d]) are modelled after their Go definitions.  The outside world (the
    HTTP server and the HTML query library, the process environment, the
    SMTP relay) is a record of oracles, and the program runs in a small
    monad that threads a trace of the observable events. *)

From Stdlib Require Import String Ascii DecimalString DecimalZ DecimalPos.
From Stdlib Require Import ZArith List Lia Bool.
Import ListNotations.

(** ** Go strings *)

Definition gostring := list ascii.

(** A string literal of the source. *)
Definition lit (s : string) : gostring := list_ascii_of_string s.
Arguments lit s%_string.

Definition LF : ascii := ascii_of_nat 10.
Definition CR : ascii := ascii_of_nat 13.
Definition TAB : ascii := ascii_of_nat 9.
Definition SP : ascii := ascii_of_nat 32.

(** The value of a byte, as Go's [uint8]. *)
Definition byteZ (c : ascii) : Z := Z.of_N (N_of_ascii c).

Definition byteOfZ (z : Z) : ascii := ascii_of_N (Z.to_N z).

(** [s[i]], for an index that the caller has checked. *)
Definition byteAt (s : gostring) (i : nat) : Z := byteZ (nth i s zero).

(** Go's [int] on a 64-bit platform: two's complement wrap-around. *)
Definition wrap_int (z : Z) : Z := (z + 2 ^ 63) mod 2 ^ 64 - 2 ^ 63.

(** ** Package [utf8] *)

Module utf8.

Open Scope Z_scope.

Definition RuneError : Z := 65533.
Definition RuneSelf : Z := 128.

(** Entries of the table [first]: the low three bits give the length of the
    sequence, the high four bits index [acceptRanges]. *)
Definition xx : Z := 241. (* 0xF1: invalid, size 1 *)
Definition as_ : Z := 240. (* 0xF0: ASCII, size 1 *)
Definition s1 : Z := 2.    (* 0x02: accept 0, size 2 *)
Definition s2 : Z := 19.   (* 0x13: accept 1, size 3 *)
Definition s3 : Z := 3.    (* 0x03: accept 0, size 3 *)
Definition s4 : Z := 35.   (* 0x23: accept 2, size 3 *)
Definition s5 : Z := 52.   (* 0x34: accept 3, size 4 *)
Definition s6 : Z := 4.    (* 0x04: accept 0, size 4 *)
Definition s7 : Z := 68.   (* 0x44: accept 4, size 4 *)

Definition locb : Z := 128. (* 0x80 *)
Definition hicb : Z := 191. (* 0xBF *)

(** [first[b]], the table written out by ranges of [b]. *)
Definition first (b : Z) : Z :=
  if b <? 128 then as_          (* 0x00-0x7F *)
  else if b <? 194 then xx      (* 0x80-0xC1 *)
  else if b <? 224 then s1      (* 0xC2-0xDF *)
  else if b =? 224 then s2      (* 0xE0 *)
  else if b <? 237 then s3      (* 0xE1-0xEC *)
  else if b =? 237 then s4      (* 0xED *)
  else if b <? 240 then s3      (* 0xEE-0xEF *)
  else if b =? 240 then s5      (* 0xF0 *)
  else if b <? 244 then s6      (* 0xF1-0xF3 *)
  else if b =? 244 then s7      (* 0xF4 *)
  else xx.                      (* 0xF5-0xFF *)

(** [acceptRanges[i]] as a pair [(lo, hi)]. *)
Definition acceptRanges (i : Z) : Z * Z :=
  if i =? 0 then (locb, hicb)
  else if i =? 1 then (160, hicb)
  else if i =? 2 then (locb, 159)
  else if i =? 3 then (144, hicb)
  else if i =? 4 then (locb, 143)
  else (0, 0).

Definition mask2 : Z := 31.
Definition mask3 : Z := 15.
Definition mask4 : Z := 7.
Definition maskx : Z := 63.

(** The runes that sequences of two, three and four bytes encode. *)
Definition rune2 (b0 b1 : Z) : Z :=
  Z.lor (Z.shiftl (Z.land b0 mask2) 6) (Z.land b1 maskx).

Definition rune3 (b0 b1 b2 : Z) : Z :=
  Z.lor (Z.lor (Z.shiftl (Z.land b0 mask3) 12)
               (Z.shiftl (Z.land b1 maskx) 6))
        (Z.land b2 maskx).

Definition rune4 (b0 b1 b2 b3 : Z) : Z :=
  Z.lor (Z.lor (Z.lor (Z.shiftl (Z.land b0 mask4) 18)
                      (Z.shiftl (Z.land b1 maskx) 12))
               (Z.shiftl (Z.land b2 maskx) 6))
        (Z.land b3 maskx).

(** [utf8.DecodeRuneInString]: the first rune of [s] and its width in
    bytes; [(RuneError, 0)] for the empty string and [(RuneError, 1)]
    for an invalid encoding. *)
Definition DecodeRuneInString (s : gostring) : Z * nat :=
  let n := length s in
  if (n <? 1)%nat then (RuneError, 0%nat) else
  let b0 := byteAt s 0 in
  let x := first b0 in
  if as_ <=? x then ((if x =? xx then RuneError else b0), 1%nat) else
  let sz := Z.to_nat (Z.land x 7) in
  let accept := acceptRanges (Z.shiftr x 4) in
  if (n <? sz)%nat then (RuneError, 1%nat) else
  let b1 := byteAt s 1 in
  if (b1 <? fst accept) || (snd accept <? b1) then (RuneError, 1%nat) else
  if (sz <=? 2)%nat then (rune2 b0 b1, 2%nat) else
  let b2 := byteAt s 2 in
  if (b2 <? locb) || (hicb <? b2) then (RuneError, 1%nat) else
  if (sz <=? 3)%nat then (rune3 b0 b1 b2, 3%nat) else
  let b3 := byteAt s 3 in
  if (b3 <? locb) || (hicb <? b3) then (RuneError, 1%nat) else
  (rune4 b0 b1 b2 b3, 4%nat).

(** [utf8.RuneStart]: the byte is not a continuation byte. *)
Definition RuneStart (b : Z) : bool := negb (Z.land b 192 =? 128).

(** The backward scan of [DecodeLastRuneInString]: [before] holds the bytes
    [s[end-2]], [s[end-3]], ... and the result is [end - 1 - start] for the
    [start] at which the loop over at most [UTFMax - 1] bytes stops. *)
Definition backScan (before : gostring) : nat :=
  match before with
  | [] => 0
  | c1 :: r1 =>
      if RuneStart (byteZ c1) then 1 else
      match r1 with
      | [] => 1
      | c2 :: r2 =>
          if RuneStart (byteZ c2) then 2 else
          match r2 with
          | [] => 2
          | _ :: _ => 3
          end
      end
  end%nat.

(** [s[len(s)-k:]]. *)
Definition lastn (k : nat) (s : gostring) : gostring :=
  rev (firstn k (rev s)).

(** [utf8.DecodeLastRuneInString]: the last rune of [s] and its width. *)
Definition DecodeLastRuneInString (s : gostring) : Z * nat :=
  match rev s with
  | [] => (RuneError, 0%nat)
  | c :: before =>
      if byteZ c <? RuneSelf then (byteZ c, 1%nat) else
      let k := S (backScan before) in
      let '(r, size) := DecodeRuneInString (lastn k s) in
      if (size =? k)%nat then (r, size) else (RuneError, 1%nat)
  end.

Definition surrogateMin : Z := 55296. (* 0xD800 *)
Definition surrogateMax : Z := 57343. (* 0xDFFF *)
Definition MaxRune : Z := 1114111.    (* 0x10FFFF *)

(** [utf8.AppendRune(nil, r)]: the UTF-8 encoding of the rune [r]. *)
Definition EncodeRune (r : Z) : gostring :=
  if (0 <=? r) && (r <? 128) then [byteOfZ r]
  else if (0 <=? r) && (r <? 2048) then
    [byteOfZ (Z.lor 192 (Z.shiftr r 6));
     byteOfZ (Z.lor 128 (Z.land r maskx))]
  else if (r <? 0) || (MaxRune <? r)
          || ((surrogateMin <=? r) && (r <=? surrogateMax)) then
    [byteOfZ 239; byteOfZ 191; byteOfZ 189]
  else if r <? 65536 then
    [byteOfZ (Z.lor 224 (Z.shiftr r 12));
     byteOfZ (Z.lor 128 (Z.land (Z.shiftr r 6) maskx));
     byteOfZ (Z.lor 128 (Z.land r maskx))]
  else
    [byteOfZ (Z.lor 240 (Z.shiftr r 18));
     byteOfZ (Z.lor 128 (Z.land (Z.shiftr r 12) maskx));
     byteOfZ (Z.lor 128 (Z.land (Z.shiftr r 6) maskx));
     byteOfZ (Z.lor 128 (Z.land r maskx))].

End utf8.

(** ** Package [unicode] *)

Module unicode.

Open Scope Z_scope.

Definition MaxLatin1 : Z := 255.

(** The 16-bit ranges of the table [White_Space] above Latin-1 (the table's
    [LatinOffset] skips the first four); every stride is 1. *)
Definition White_Space_R16 : list (Z * Z) :=
  [(5760, 5760);   (* U+1680 *)
   (8192, 8202);   (* U+2000-U+200A *)
   (8232, 8233);   (* U+2028-U+2029 *)
   (8239, 8239);   (* U+202F *)
   (8287, 8287);   (* U+205F *)
   (12288, 12288)  (* U+3000 *)].

Definition isExcludingLatin (ranges : list (Z * Z)) (r : Z) : bool :=
  existsb (fun lh => (fst lh <=? r) && (r <=? snd lh)) ranges.

(** [unicode.IsSpace]. *)
Definition IsSpace (r : Z) : bool :=
  if (0 <=? r) && (r <=? MaxLatin1) then
    (r =? 9) || (r =? 10) || (r =? 11) || (r =? 12) || (r =? 13)
    || (r =? 32) || (r =? 133) || (r =? 160)
  else isExcludingLatin White_Space_R16 r.

End unicode.

(** ** Package [strings] *)

Module strings.

Open Scope Z_scope.

Fixpoint HasPrefix (s prefix : gostring) {struct prefix} : bool :=
  match prefix with
  | [] => true
  | p :: prefix' =>
      match s with
      | [] => false
      | c :: s' => Ascii.eqb c p && HasPrefix s' prefix'
      end
  end.

(** [strings.Index]: the index of the first instance of [substr] in [s],
    or [-1]. *)
Fixpoint Index (s substr : gostring) : Z :=
  if HasPrefix s substr then 0 else
  match s with
  | [] => -1
  | _ :: s' =>
      let i := Index s' substr in
      if i <? 0 then -1 else i + 1
  end.

Definition Contains (s substr : gostring) : bool := 0 <=? Index s substr.

(** The table [asciiSpace] of [strings.TrimSpace]. *)
Definition asciiSpace (b : Z) : bool :=
  (b =? 9) || (b =? 10) || (b =? 11) || (b =? 12) || (b =? 13) || (b =? 32).

(** The loop [for i, r := range rest] of [indexFunc], entered at byte
    offset [i]: the offset of the first rune on which [f] gives [truth]. *)
Fixpoint indexFunc_from (fuel : nat) (rest : gostring) (i : nat)
         (f : Z -> bool) (truth : bool) : option nat :=
  match fuel with
  | O => None
  | S fuel' =>
      match rest with
      | [] => None
      | _ :: _ =>
          let '(r, size) := utf8.DecodeRuneInString rest in
          if Bool.eqb (f r) truth then Some i
          else indexFunc_from fuel' (skipn size rest) (i + size) f truth
      end
  end.

(** [strings.indexFunc]; [None] stands for [-1]. *)
Definition indexFunc (s : gostring) (f : Z -> bool) (truth : bool)
  : option nat :=
  indexFunc_from (length s) s 0 f truth.

(** The loop of [lastIndexFunc] on [p = s[0:i]]. *)
Fixpoint lastIndexFunc_upto (fuel : nat) (p : gostring)
         (f : Z -> bool) (truth : bool) : option nat :=
  match fuel with
  | O => None
  | S fuel' =>
      match p with
      | [] => None
      | _ :: _ =>
          let '(r, size) := utf8.DecodeLastRuneInString p in
          let i := (length p - size)%nat in
          if Bool.eqb (f r) truth then Some i
          else lastIndexFunc_upto fuel' (firstn i p) f truth
      end
  end.

(** [strings.lastIndexFunc]; [None] stands for [-1]. *)
Definition lastIndexFunc (s : gostring) (f : Z -> bool) (truth : bool)
  : option nat :=
  lastIndexFunc_upto (length s) s f truth.

(** [strings.TrimLeftFunc]. *)
Definition TrimLeftFunc (s : gostring) (f : Z -> bool) : gostring :=
  match indexFunc s f false with
  | None => []
  | Some i => skipn i s
  end.

(** [strings.TrimRightFunc]. *)
Definition TrimRightFunc (s : gostring) (f : Z -> bool) : gostring :=
  match lastIndexFunc s f false with
  | Some i =>
      if utf8.RuneSelf <=? byteAt s i then
        let '(_, wid) := utf8.DecodeRuneInString (skipn i s) in
        firstn (i + wid) s
      else firstn (i + 1) s
  | None => firstn 0 s
  end.

(** [strings.TrimFunc]. *)
Definition TrimFunc (s : gostring) (f : Z -> bool) : gostring :=
  TrimRightFunc (TrimLeftFunc s f) f.

(** One of the two ASCII loops of [TrimSpace], run over the bytes in the
    order the loop visits them: the bytes left when the loop stops, and
    whether it stopped on a byte that is not ASCII. *)
Fixpoint skipAsciiSpace (s : gostring) : gostring * bool :=
  match s with
  | [] => ([], false)
  | c :: s' =>
      if utf8.RuneSelf <=? byteZ c then (s, true)
      else if asciiSpace (byteZ c) then skipAsciiSpace s'
      else (s, false)
  end.

(** [strings.TrimSpace]: the fast path over ASCII, and the fall back to
    the Unicode-aware functions at the first byte that is not ASCII.  The
    second loop walks from the end, so it runs on the reversed bytes. *)
Definition TrimSpace (s : gostring) : gostring :=
  match skipAsciiSpace s with
  | (from_start, true) => TrimFunc from_start unicode.IsSpace
  | (from_start, false) =>
      match skipAsciiSpace (rev from_start) with
      | (upto_stop, true) => TrimRightFunc (rev upto_stop) unicode.IsSpace
      | (upto_stop, false) => rev upto_stop
      end
  end.

(** [strings.Split(s, "\n")] for a one-byte separator. *)
Fixpoint Split (s : gostring) (sep : ascii) : list gostring :=
  match s with
  | [] => [[]]
  | c :: s' =>
      if Ascii.eqb c sep then [] :: Split s' sep
      else match Split s' sep with
           | [] => [[c]]
           | l :: ls => (c :: l) :: ls
           end
  end.

End strings.

(** ** Package [fmt] *)

Module fmt.

(** The verb [%d] on an [int]. *)
Definition itoa (z : Z) : gostring :=
  lit (NilZero.string_of_int (Z.to_int z)).

End fmt.

(** ** The data of the program *)

(** [type JobPosting struct]. *)
Record JobPosting : Type := { Title : gostring; URL : gostring }.

(** What the HTML query library gives for one [li[role='listitem']] element
    [s]: with [jobLink := s.Find("h3.text-size-4 a")], the text
    [jobLink.Text()] and the pair [jobLink.Attr("href")]. *)
Record Item : Type := { Text : gostring; Attr_href : gostring * bool }.

(** The outcome of [goquery.NewDocumentFromReader(resp.Body)]: an error, or
    a document, of which the program uses the selection
    [doc.Find("ul.job-list li[role='listitem']")] only. *)
Inductive Parsed : Type :=
| ParseErr (err : gostring)
| ParseOk (jobItems : list Item).

Record Response : Type := { StatusCode : Z; Body : Parsed }.

(** The outcome of [http.Get(url)]. *)
Inductive Fetched : Type :=
| GetErr (err : gostring)
| GetOk (resp : Response).

(** [smtp.PlainAuth(identity, username, password, host)]. *)
Record Auth : Type :=
  { identity : gostring; username : gostring;
    password : gostring; host : gostring }.

(** The outside world of one run.  [http_Get n url] is the outcome of the
    request for [url] when [n] requests were made before it; [os_Getenv] is
    the process environment; [smtp_SendMail] is the relay, giving [None] for
    a [nil] error. *)
Record World : Type :=
  { http_Get : nat -> gostring -> Fetched;
    os_Getenv : gostring -> gostring;
    smtp_SendMail :
      gostring -> Auth -> gostring -> list gostring -> gostring
      -> option gostring }.

(** The observable events of a run, in the order they happen. *)
Inductive event : Type :=
| Stdout (text : gostring)
| LogFatal (text : gostring)
| HttpGet (url : gostring)
| SendMail (addr : gostring) (a : Auth) (from : gostring)
           (to : list gostring) (msg : gostring).

(** ** The monad of the program: a trace, and an exit *)

Inductive Outcome (A : Type) : Type :=
| Returned (a : A)
| Exited (code : Z)
| OutOfFuel.
Arguments Returned {A} a.
Arguments Exited {A} code.
Arguments OutOfFuel {A}.

Definition Run (A : Type) : Type := list event -> Outcome A * list event.

Definition ret {A} (a : A) : Run A := fun tr => (Returned a, tr).

Definition bind {A B} (c : Run A) (k : A -> Run B) : Run B :=
  fun tr =>
    match c tr with
    | (Returned a, tr') => k a tr'
    | (Exited code, tr') => (Exited code, tr')
    | (OutOfFuel, tr') => (OutOfFuel, tr')
    end.

Declare Scope run_scope.
Delimit Scope run_scope with run.
Notation "x <- c ;; k" := (bind c (fun x => k))
  (at level 61, c at next level, right associativity) : run_scope.
Notation "c ;;; k" := (bind c (fun _ => k))
  (at level 61, right associativity) : run_scope.

Definition emit (e : event) : Run unit := fun tr => (Returned tt, tr ++ [e]).

Definition isHttpGet (e : event) : bool :=
  match e with HttpGet _ => true | _ => false end.

Definition isSendMail (e : event) : bool :=
  match e with SendMail _ _ _ _ _ => true | _ => false end.

Definition isOutput (e : event) : bool :=
  match e with Stdout _ | LogFatal _ => true | _ => false end.

(** The requests, the mails and the output lines of a trace. *)
Definition requests (tr : list event) : list event := filter isHttpGet tr.
Definition mails (tr : list event) : list event := filter isSendMail tr.
Definition output (tr : list event) : list event := filter isOutput tr.

(** [fmt.Printf] and [fmt.Println], on the formatted text. *)
Definition Printf (text : gostring) : Run unit := emit (Stdout text).

(** [log.Fatalf]: the message goes to the log (its time stamp is left out)
    and the process exits with status 1; deferred calls do not run. *)
Definition Fatalf {A} (text : gostring) : Run A :=
  fun tr => (Exited 1, tr ++ [LogFatal text]).

(** [http.Get]. *)
Definition Get (w : World) (url : gostring) : Run Fetched :=
  fun tr =>
    (Returned (http_Get w (length (requests tr)) url), tr ++ [HttpGet url]).

(** [smtp.SendMail]. *)
Definition Send (w : World) (addr : gostring) (a : Auth) (from : gostring)
           (to : list gostring) (msg : gostring) : Run (option gostring) :=
  fun tr =>
    (Returned (smtp_SendMail w addr a from to msg),
     tr ++ [SendMail addr a from to msg]).

(** [for _, x := range xs { body }]. *)
Fixpoint forEach {A} (xs : list A) (body : A -> Run unit) : Run unit :=
  match xs with
  | [] => ret tt
  | x :: xs' => (body x ;;; forEach xs' body)%run
  end.

(** ** [main] *)

Definition baseURL : gostring :=
  lit "https://careers.airbnb.com/positions/?_departments=engineering&_offices=united-states&_paged=".

(** The condition of the [if] at lines 65-71. *)
Definition titleFilter (title : gostring) : bool :=
  strings.Contains title (lit "Software Engineer")
  && negb (strings.Contains title (lit "Senior"))
  && negb (strings.Contains title (lit "Staff"))
  && negb (strings.Contains title (lit "Sr."))
  && negb (strings.Contains title (lit "Principal"))
  && negb (strings.Contains title (lit "Android"))
  && negb (strings.Contains title (lit "iOS")).

(** The function passed to [jobItems.Each], as a function of the captured
    variable [allJobs]. *)
Definition callback (allJobs : list JobPosting) (s : Item)
  : list JobPosting :=
  let title := strings.TrimSpace (Text s) in
  let '(link, exists_) := Attr_href s in
  let link := if negb exists_ then lit "" else link in
  if titleFilter title
  then allJobs ++ [{| Title := title; URL := link |}]
  else allJobs.

(** [Selection.Each]: the function is called on the elements in order. *)
Definition Each (jobItems : list Item)
           (f : list JobPosting -> Item -> list JobPosting)
           (allJobs : list JobPosting) : list JobPosting :=
  fold_left f jobItems allJobs.

(** [fmt.Sprintf("%s%d", baseURL, page)]. *)
Definition pageURL (page : Z) : gostring := baseURL ++ fmt.itoa page.

(** How one turn of the [for] loop ends. *)
Inductive Control : Type := Continue | Break.

(** One turn of the loop of [main], lines 28-85, from the values of [page]
    and [allJobs] at its start; [page++] is left to the loop.  The deferred
    [resp.Body.Close()] of line 35 has no observable event here. *)
Definition iteration (w : World) (page : Z) (allJobs : list JobPosting)
  : Run (Control * list JobPosting) :=
  (let url := pageURL page in
   Printf (lit "Fetching page " ++ fmt.itoa page ++ lit ": " ++ url ++ [LF]) ;;;
   got <- Get w url ;;
   match got with
   | GetErr err =>
       Fatalf (lit "Error fetching page " ++ fmt.itoa page ++ lit ": " ++ err)
   | GetOk resp =>
       if negb (StatusCode resp =? 200)%Z then
         Fatalf (lit "Non-200 HTTP status on page " ++ fmt.itoa page
                 ++ lit ": " ++ fmt.itoa (StatusCode resp))
       else
         match Body resp with
         | ParseErr err =>
             Fatalf (lit "Error parsing HTML on page " ++ fmt.itoa page
                     ++ lit ": " ++ err)
         | ParseOk jobItems =>
             if (Z.of_nat (length jobItems) =? 0)%Z then
               Printf (lit "No job listings found on this page; ending pagination."
                      ++ [LF]) ;;;
               ret (Break, allJobs)
             else
               let allJobs := Each jobItems callback allJobs in
               if (Z.of_nat (length jobItems) <? 10)%Z then
                 Printf (lit "Fewer than 10 job items found; likely the last page."
                        ++ [LF]) ;;;
                 ret (Break, allJobs)
               else ret (Continue, allJobs)
         end
   end)%run.

(** The loop [for { ... }] of [main]; [fuel] bounds the number of turns. *)
Fixpoint loop (fuel : nat) (w : World) (page : Z) (allJobs : list JobPosting)
  : Run (list JobPosting) :=
  match fuel with
  | O => fun tr => (OutOfFuel, tr)
  | S fuel' =>
      (r <- iteration w page allJobs ;;
       match r with
       | (Break, allJobs') => ret allJobs'
       | (Continue, allJobs') =>
           loop fuel' w (wrap_int (page + 1)) allJobs'
       end)%run
  end.

(** ** [sendDailyJobEmail] *)

Definition smtpHost : gostring := lit "smtp.gmail.com".
Definition smtpPort : gostring := lit "587".
Definition subject : gostring := lit "Daily Job Postings".

(** [fmt.Sprintf("- %s: %s\n", job.Title, job.URL)]. *)
Definition jobEntry (job : JobPosting) : gostring :=
  lit "- " ++ Title job ++ lit ": " ++ URL job ++ [LF].

(** [body.WriteString] on a [strings.Builder] holding [body]. *)
Definition WriteString (body text : gostring) : gostring := body ++ text.

(** The text in [body] at line 124. *)
Definition emailBody (jobPostings : list JobPosting) : gostring :=
  let body := lit "" in
  let body :=
    if (Z.of_nat (length jobPostings) =? 0)%Z then
      WriteString body
        (lit "Hello," ++ [LF; LF]
         ++ lit "No current job postings found today." ++ [LF])
    else
      WriteString body
        (lit "Hello," ++ [LF; LF]
         ++ lit "Here are today's midlevel Software Engineer job postings:"
         ++ [LF; LF]) in
  let body :=
    fold_left (fun body job => WriteString body (jobEntry job))
              jobPostings body in
  let body :=
    WriteString body
      ([LF]
       ++ lit " You can find more job postings at https://careers.airbnb.com/positions/?_departments=engineering&_offices=united-states"
       ++ [LF]) in
  WriteString body
    ([LF] ++ lit "Best regards," ++ [LF] ++ lit "Your Job Scraper").

(** [fmt.Sprintf("From: %s\r\nTo: %s\r\nSubject: %s\r\n\r\n%s", ...)]. *)
Definition emailMessage (from to subject body : gostring) : gostring :=
  lit "From: " ++ from ++ [CR; LF]
  ++ lit "To: " ++ to ++ [CR; LF]
  ++ lit "Subject: " ++ subject ++ [CR; LF]
  ++ [CR; LF] ++ body.

(** [sendDailyJobEmail]; the result is the [error], [None] for [nil]. *)
Definition sendDailyJobEmail (w : World) (jobPostings : list JobPosting)
  : Run (option gostring) :=
  (let from := os_Getenv w (lit "FROM_EMAIL") in
   let to := os_Getenv w (lit "TO_EMAIL") in
   let password := os_Getenv w (lit "GOOGLE_APP_PASSWORD") in
   let message := emailMessage from to subject (emailBody jobPostings) in
   let auth :=
     {| identity := lit ""; username := from;
        password := password; host := smtpHost |} in
   err <- Send w (smtpHost ++ lit ":" ++ smtpPort) auth from [to] message ;;
   match err with
   | Some e => ret (Some e)
   | None => ret None
   end)%run.

(** [main], lines 20-95.  The value of [sendDailyJobEmail] is dropped, and
    returning from [main] ends the process with status 0. *)
Definition main (fuel : nat) (w : World) : Run unit :=
  (allJobs <- loop fuel w 1 [] ;;
   Printf ([LF] ++ lit "Found " ++ fmt.itoa (Z.of_nat (length allJobs))
          ++ lit " midlevel Software Engineer positions:" ++ [LF]) ;;;
   forEach allJobs
     (fun job =>
        Printf (lit "- " ++ Title job ++ lit " (" ++ URL job ++ lit ")"
               ++ [LF])) ;;;
   _ <- sendDailyJobEmail w allJobs ;;
   ret tt)%run.

(** A run of the whole program from the empty trace. *)
Definition run (fuel : nat) (w : World) : Outcome unit * list event :=
  main fuel w [].

(** ** Notions of the specification *)

(** [sub] occurs in [s]. *)
Definition Substring (sub s : gostring) : Prop :=
  exists before after, s = before ++ sub ++ after.

(** The title starts, or ends, with the UTF-8 encoding of a white space
    character of Unicode. *)
Definition spaceAtStart (s : gostring) : Prop :=
  exists r rest, unicode.IsSpace r = true /\ s = utf8.EncodeRune r ++ rest.

Definition spaceAtEnd (s : gostring) : Prop :=
  exists r front, unicode.IsSpace r = true /\ s = front ++ utf8.EncodeRune r.

Definition trimmed (s : gostring) : Prop :=
  ~ spaceAtStart s /\ ~ spaceAtEnd s.

(** The six exclusion terms of the title filter. *)
Definition exclusions : list gostring :=
  [lit "Senior"; lit "Staff"; lit "Sr."; lit "Principal"; lit "Android";
   lit "iOS"].

(** A title that the filter is meant to include. *)
Definition wanted (title : gostring) : Prop :=
  Substring (lit "Software Engineer") title
  /\ forall term, In term exclusions -> ~ Substring term title.

(** A posting that may sit in the accumulated list. *)
Definition accepted (job : JobPosting) : Prop :=
  wanted (Title job) /\ trimmed (Title job).

(** The posting that the callback builds from an item. *)
Definition postingOf (s : Item) : JobPosting :=
  {| Title := strings.TrimSpace (Text s);
     URL := if snd (Attr_href s) then fst (Attr_href s) else lit "" |}.

(** The postings that one page contributes: its items in order, each
    extracted, those that pass the title filter kept. *)
Definition pagePostings (jobItems : list Item) : list JobPosting :=
  filter (fun job => titleFilter (Title job)) (map postingOf jobItems).

(** The value of [page] in the turn of the loop that follows [n] earlier
    turns. *)
Fixpoint pageAt (n : nat) : Z :=
  match n with
  | O => 1%Z
  | S n' => wrap_int (pageAt n' + 1)
  end.

(** What the [n]-th request of a run receives when the loop makes it. *)
Definition fetched (w : World) (n : nat) : Fetched :=
  http_Get w n (pageURL (pageAt n)).

(** The [n]-th listing page is served with status 200 and parses into the
    items [jobItems]. *)
Definition serves (w : World) (n : nat) (jobItems : list Item) : Prop :=
  fetched w n = GetOk {| StatusCode := 200; Body := ParseOk jobItems |}.

(** A fatal collection error on the [n]-th request: the request fails, the
    status is not 200, or the HTML does not parse. *)
Definition fatalAt (w : World) (n : nat) : Prop :=
  match fetched w n with
  | GetErr _ => True
  | GetOk resp =>
      StatusCode resp <> 200%Z
      \/ exists err, Body resp = ParseErr err
  end.

(** The requests for the first [n] listing pages, in order. *)
Definition pageRequests (n : nat) : list event :=
  map (fun i => HttpGet (pageURL (pageAt i))) (seq 0 n).

(** The lines of a text. *)
Definition lines (text : gostring) : list gostring := strings.Split text LF.

(** The line of the mail for one posting. *)
Definition postingLine (job : JobPosting) : gostring :=
  lit "- " ++ Title job ++ lit ": " ++ URL job.

(** A line of the form [- <title>: <url>], for some title and URL. *)
Definition isPostingLine (line : gostring) : bool :=
  strings.HasPrefix line (lit "- ")
  && strings.Contains (skipn 2 line) (lit ": ").

Definition noLF (s : gostring) : Prop := ~ In LF s.

(** The lines of the body before and after the postings. *)
Definition greetingLines : list gostring :=
  [lit "Hello,"; lit "";
   lit "Here are today's midlevel Software Engineer job postings:"; lit ""].

Definition emptyLines : list gostring :=
  [lit "Hello,"; lit ""; lit "No current job postings found today."].

Definition closingLines : list gostring :=
  [lit "";
   lit " You can find more job postings at https://careers.airbnb.com/positions/?_departments=engineering&_offices=united-states";
   lit ""; lit "Best regards,"; lit "Your Job Scraper"].

(** ** The events of a run, written out *)

(** The events of a turn of the loop up to the answer of the server. *)
Definition fetchEvents (page : Z) : list event :=
  [Stdout (lit "Fetching page " ++ fmt.itoa page ++ lit ": "
           ++ pageURL page ++ [LF]);
   HttpGet (pageURL page)].

(** The same for the [k] turns that follow [n] earlier turns. *)
Definition fetchesFrom (n k : nat) : list event :=
  flat_map (fun i => fetchEvents (pageAt i)) (seq n k).

Definition emptyPageNote : event :=
  Stdout (lit "No job listings found on this page; ending pagination."
          ++ [LF]).

Definition lastPageNote : event :=
  Stdout (lit "Fewer than 10 job items found; likely the last page."
          ++ [LF]).

(** What [main] prints after the loop. *)
Definition report (allJobs : list JobPosting) : list event :=
  Stdout ([LF] ++ lit "Found " ++ fmt.itoa (Z.of_nat (length allJobs))
          ++ lit " midlevel Software Engineer positions:" ++ [LF])
  :: map (fun job =>
            Stdout (lit "- " ++ Title job ++ lit " (" ++ URL job ++ lit ")"
                    ++ [LF]))
         allJobs.

(** The delivery attempt of [sendDailyJobEmail] in the world [w]. *)
Definition mailEvent (w : World) (jobPostings : list JobPosting) : event :=
  let from := os_Getenv w (lit "FROM_EMAIL") in
  let to := os_Getenv w (lit "TO_EMAIL") in
  SendMail (lit "smtp.gmail.com:587")
           {| identity := lit ""; username := from;
              password := os_Getenv w (lit "GOOGLE_APP_PASSWORD");
              host := lit "smtp.gmail.com" |}
           from [to]
           (emailMessage from to (lit "Daily Job Postings")
                         (emailBody jobPostings)).

(** The answer of the relay to that attempt. *)
Definition relayAnswer (w : World) (jobPostings : list JobPosting)
  : option gostring :=
  match mailEvent w jobPostings with
  | SendMail addr a from to msg => smtp_SendMail w addr a from to msg
  | _ => None
  end.

(** The world [w] with another relay. *)
Definition withRelay (w : World)
           (relay : gostring -> Auth -> gostring -> list gostring -> gostring
                    -> option gostring) : World :=
  {| http_Get := http_Get w; os_Getenv := os_Getenv w;
     smtp_SendMail := relay |}.

(** The parameters of a delivery attempt. *)
Definition relayOf (e : event) : gostring :=
  match e with SendMail addr _ _ _ _ => addr | _ => [] end.

Definition senderOf (e : event) : gostring :=
  match e with SendMail _ _ from _ _ => from | _ => [] end.

Definition recipientsOf (e : event) : list gostring :=
  match e with SendMail _ _ _ to _ => to | _ => [] end.

Definition credentialOf (e : event) : gostring :=
  match e with SendMail _ a _ _ _ => password a | _ => [] end.

Definition messageOf (e : event) : gostring :=
  match e with SendMail _ _ _ _ msg => msg | _ => [] end.

(** The delivery attempts that the notifier makes for an empty list of
    postings, from the empty trace. *)
Definition attempts (w : World) : list event :=
  mails (snd (sendDailyJobEmail w [] [])).

(** A delivery parameter is hardcoded when it has the same value in every
    world. *)
Definition hardcoded (param : event -> gostring) : Prop :=
  exists value, forall w e, In e (attempts w) -> param e = value.

(** A delivery parameter is supplied externally when it is the value of a
    variable of the environment, whatever the world. *)
Definition suppliedExternally (param : event -> gostring) : Prop :=
  exists key, forall w e, In e (attempts w) -> param e = os_Getenv w key.

(** ** The points of the pagination loop *)

(** The items of the [n]-th listing page, when it is served. *)
Definition pageItems (w : World) (n : nat) : list Item :=
  match fetched w n with
  | GetOk resp =>
      match Body resp with
      | ParseOk jobItems => jobItems
      | ParseErr _ => []
      end
  | GetErr _ => []
  end.

(** [reached w n jobItems k allJobs]: in the run in the world [w], after [n]
    full turns of the loop, the page of the next turn has the items
    [jobItems], the callback of [Each] has run on the first [k] of them and
    [allJobs] has the given value. *)
Inductive reached (w : World)
  : nat -> list Item -> nat -> list JobPosting -> Prop :=
| reached_start jobItems :
    serves w 0 jobItems -> reached w 0 jobItems 0 []
| reached_item n jobItems k allJobs s :
    reached w n jobItems k allJobs ->
    nth_error jobItems k = Some s ->
    reached w n jobItems (S k) (callback allJobs s)
| reached_turn n jobItems allJobs jobItems' :
    reached w n jobItems (length jobItems) allJobs ->
    10 <= length jobItems ->
    serves w (S n) jobItems' ->
    reached w (S n) jobItems' 0 allJobs.

(** ** Notions used to reason about [TrimSpace] *)

(** The string is empty or starts with a byte that starts a rune. *)
Definition startsRune (s : gostring) : Prop :=
  match s with
  | [] => True
  | c :: _ => utf8.RuneStart (byteZ c) = true
  end.

(** The three ways in which [DecodeLastRuneInString] reads the bytes [w] at
    the end of a string as the rune [r]: an ASCII byte, a byte that is not
    part of a valid sequence, a valid sequence of several bytes. *)
Inductive lastRune (w : gostring) (r : Z) : Prop :=
| last_ascii c : w = [c] -> (byteZ c < 128)%Z -> r = byteZ c -> lastRune w r
| last_invalid c :
    w = [c] -> (128 <= byteZ c)%Z -> r = utf8.RuneError -> lastRune w r
| last_wide :
    2 <= length w ->
    utf8.DecodeRuneInString w = (r, length w) -> lastRune w r.

(** What one ASCII loop of [TrimSpace] leaves, and the flag it gives. *)
Inductive asciiStop : gostring -> bool -> Prop :=
| stop_end : asciiStop [] false
| stop_ascii c s :
    (byteZ c < 128)%Z -> strings.asciiSpace (byteZ c) = false ->
    asciiStop (c :: s) false
| stop_high c s : (128 <= byteZ c)%Z -> asciiStop (c :: s) true.

(** The first and the last rune of [q], as Go decodes them, are not white
    space. *)
Definition noSpaceAtEnds (q : gostring) : Prop :=
  q = []
  \/ (unicode.IsSpace (fst (utf8.DecodeRuneInString q)) = false
      /\ unicode.IsSpace (fst (utf8.DecodeLastRuneInString q)) = false).

(** The white space characters of Unicode. *)
Definition spaceRunes : list Z :=
  [9; 10; 11; 12; 13; 32; 133; 160; 5760;
   8192; 8193; 8194; 8195; 8196; 8197; 8198; 8199; 8200; 8201; 8202;
   8232; 8233; 8239; 8287; 12288]%Z.

(** ** A reader of mail messages

    The reader follows Go's [net/mail.ReadMessage], which reads the header
    with [textproto.Reader.ReadMIMEHeader] and leaves the rest as the body.
    A header is a list of keys and values in the order read. *)

Module mail.

(** The bytes before the next line feed, and those after it. *)
Fixpoint untilLF (s : gostring) : option (gostring * gostring) :=
  match s with
  | [] => None
  | c :: s' =>
      if Ascii.eqb c LF then Some ([], s')
      else match untilLF s' with
           | Some (line, rest) => Some (c :: line, rest)
           | None => None
           end
  end.

Definition dropCR (line : gostring) : gostring :=
  match rev line with
  | c :: r => if Ascii.eqb c CR then rev r else line
  | [] => line
  end.

(** [ReadLine]: a line without its ["\n"] or ["\r\n"]; [None] when the
    input ends before a line feed. *)
Definition readLine (s : gostring) : option (gostring * gostring) :=
  match untilLF s with
  | Some (line, rest) => Some (dropCR line, rest)
  | None => None
  end.

Definition isBlank (c : ascii) : bool := Ascii.eqb c SP || Ascii.eqb c TAB.

Fixpoint trimLeft (s : gostring) : gostring :=
  match s with
  | [] => []
  | c :: s' => if isBlank c then trimLeft s' else s
  end.

(** [trim]: without leading and trailing spaces and tabs. *)
Definition trim (s : gostring) : gostring :=
  rev (trimLeft (rev (trimLeft s))).

(** The lines that continue [line]: while the input goes on with a space
    or a tab, the next line is trimmed and joined with one space. *)
Fixpoint continued (fuel : nat) (line rest : gostring)
  : option (gostring * gostring) :=
  match fuel with
  | O => None
  | S fuel' =>
      match rest with
      | c :: _ =>
          if isBlank c then
            match readLine rest with
            | Some (l, rest') =>
                continued fuel' (line ++ [SP] ++ trim l) rest'
            | None => None
            end
          else Some (line, rest)
      | [] => Some (line, rest)
      end
  end.

(** [readContinuedLine]: [Some ([], rest)] at the blank line. *)
Definition readContinuedLine (s : gostring)
  : option (gostring * gostring) :=
  match readLine s with
  | Some ([], rest) => Some ([], rest)
  | Some (line, rest) => continued (S (length rest)) (trim line) rest
  | None => None
  end.

(** [bytes.Cut(kv, ":")]. *)
Fixpoint cutColon (kv : gostring) : option (gostring * gostring) :=
  match kv with
  | [] => None
  | c :: kv' =>
      if Ascii.eqb c ":"%char then Some ([], kv')
      else match cutColon kv' with
           | Some (k, v) => Some (c :: k, v)
           | None => None
           end
  end.

Definition isLower (b : Z) : bool := (97 <=? b)%Z && (b <=? 122)%Z.
Definition isUpper (b : Z) : bool := (65 <=? b)%Z && (b <=? 90)%Z.
Definition isDigit (b : Z) : bool := (48 <=? b)%Z && (b <=? 57)%Z.

(** [validHeaderFieldByte]: the bytes of a token. *)
Definition validHeaderFieldByte (c : ascii) : bool :=
  let b := byteZ c in
  isLower b || isUpper b || isDigit b
  || existsb (Ascii.eqb c) (lit "!#$%&'*+-.^_`|~").

(** [validHeaderValueByte]: a tab, or a byte that is not a control
    character. *)
Definition validHeaderValueByte (c : ascii) : bool :=
  let b := byteZ c in
  (b =? 9)%Z || ((32 <=? b)%Z && (b <=? 126)%Z) || (128 <=? b)%Z.

(** The canonical form of a key: upper case at the start and after each
    dash, lower case elsewhere. *)
Fixpoint canonical (upper : bool) (k : gostring) : gostring :=
  match k with
  | [] => []
  | c :: k' =>
      let b := byteZ c in
      let c' :=
        if upper && isLower b then byteOfZ (b - 32)
        else if negb upper && isUpper b then byteOfZ (b + 32)
        else c in
      c' :: canonical (Ascii.eqb c' "-"%char) k'
  end.

(** [ReadMIMEHeader], after the check of the first byte: the pairs read so
    far are in [acc], last first. *)
Fixpoint readHeader (fuel : nat) (s : gostring)
         (acc : list (gostring * gostring))
  : option (list (gostring * gostring) * gostring) :=
  match fuel with
  | O => None
  | S fuel' =>
      match readContinuedLine s with
      | None => None
      | Some ([], rest) => Some (rev acc, rest)
      | Some (kv, rest) =>
          match cutColon kv with
          | None => None
          | Some (k, v) =>
              if negb (forallb validHeaderFieldByte k)
                 || negb (forallb validHeaderValueByte v)
              then None
              else
                match k with
                | [] => None
                | _ :: _ =>
                    readHeader fuel' rest
                               ((canonical true k, trimLeft v) :: acc)
                end
          end
      end
  end.

(** [mail.ReadMessage]: the header and the body, or [None] for an error. *)
Definition ReadMessage (s : gostring)
  : option (list (gostring * gostring) * gostring) :=
  match s with
  | c :: _ => if isBlank c then None else readHeader (length s) s []
  | [] => None
  end.

(** [Header.Get]: the first value of the key, or the empty string. *)
Fixpoint Get (h : list (gostring * gostring)) (key : gostring)
  : gostring :=
  match h with
  | [] => []
  | (k, v) :: h' =>
      if list_eq_dec ascii_dec k (canonical true key) then v
      else Get h' key
  end.

(** A value that a header line carries unchanged: tabs and bytes that are
    not control characters, with no space or tab at either end. *)
Definition headerSafe (v : gostring) : Prop :=
  forallb validHeaderValueByte v = true
  /\ trimLeft v = v
  /\ trimLeft (rev v) = rev v.

End mail.

(** The body lists the postings: its lines of the form [- <title>: <url>]
    are the lines of the postings, in their order. *)
Definition listsPostings (jobPostings : list JobPosting) : Prop :=
  filter isPostingLine (lines (emailBody jobPostings))
  = map postingLine jobPostings.

(** The reader gives back the header values and the body of the message
    composed from [from], [to] and the postings. *)
Definition readsBack (from to : gostring) (jobPostings : list JobPosting)
  : Prop :=
  exists header body,
    mail.ReadMessage (emailMessage from to subject (emailBody jobPostings))
    = Some (header, body)
    /\ mail.Get header (lit "From") = from
    /\ mail.Get header (lit "To") = to
    /\ mail.Get header (lit "Subject") = subject
    /\ body = emailBody jobPostings.

(** The text of the body before and after the entries of the postings. *)
Definition greeting : gostring :=
  lit "Hello," ++ [LF; LF]
  ++ lit "Here are today's midlevel Software Engineer job postings:"
  ++ [LF; LF].

Definition closing : gostring :=
  [LF]
  ++ lit " You can find more job postings at https://careers.airbnb.com/positions/?_departments=engineering&_offices=united-states"
  ++ [LF] ++ [LF] ++ lit "Best regards," ++ [LF] ++ lit "Your Job Scraper".

(** A posting whose title has a line break in it. *)
Definition twoLineJob : JobPosting :=
  {| Title := lit "Software Engineer" ++ [LF] ++ lit "- Remote: US";
     URL := lit "/positions/1" |}.

(** A sender with a line break in it. *)
Definition twoLineSender : gostring :=
  lit "jobs@example.org" ++ [CR; LF; CR; LF] ++ lit "x".

(** A world in which every variable of the environment is empty. *)
Definition blankWorld : World :=
  {| http_Get := fun _ _ => GetErr (lit "");
     os_Getenv := fun _ => lit "";
     smtp_SendMail := fun _ _ _ _ _ => None |}.

(** The pages [full], each with ten items or more, are served one after
    the other from the first request on. *)
Definition servesFull (w : World) (full : list (list Item)) : Prop :=
  forall i jobItems,
    nth_error full i = Some jobItems ->
    serves w i jobItems /\ 10 <= length jobItems.

(** The string is empty or starts with a byte that is not a space or a
    tab. *)
Definition startsNonBlank (s : gostring) : Prop :=
  match s with
  | [] => True
  | c :: _ => mail.isBlank c = false
  end.

(** ** Example worlds *)

Definition listed (text href : string) : Item :=
  {| Text := lit text; Attr_href := (lit href, true) |}.
Arguments listed (text href)%_string.

(** A listing page with ten items; three of them pass the title filter. *)
Definition fullPage : list Item :=
  [listed "  Software Engineer, Payments  " "/positions/1";
   listed "Senior Software Engineer" "/positions/2";
   listed "Staff Software Engineer, Android" "/positions/3";
   listed "Software Engineer II" "/positions/4";
   listed "Engineering Manager" "/positions/5";
   listed "Principal Engineer" "/positions/6";
   listed "iOS Software Engineer" "/positions/7";
   listed "Sr. Software Engineer" "/positions/8";
   listed "Data Scientist" "/positions/9";
   {| Text := lit "Software Engineer, Search"; Attr_href := (lit "", false) |}].

(** A listing page with one item. *)
Definition shortPage : list Item :=
  [listed "Software Engineer, Trust" "/positions/11"].

Definition served (jobItems : list Item) : Fetched :=
  GetOk {| StatusCode := 200; Body := ParseOk jobItems |}.

Definition exampleEnv (key : gostring) : gostring :=
  if list_eq_dec ascii_dec key (lit "FROM_EMAIL") then lit "me@example.org"
  else if list_eq_dec ascii_dec key (lit "TO_EMAIL") then lit "you@example.org"
  else if list_eq_dec ascii_dec key (lit "GOOGLE_APP_PASSWORD")
       then lit "app-password"
  else lit "".

(** A relay that rejects every message. *)
Definition rejectingRelay
  : gostring -> Auth -> gostring -> list gostring -> gostring
    -> option gostring :=
  fun _ _ _ _ _ => Some (lit "535 Authentication failed").

(** The site serves [fullPage] and then [shortPage]. *)
Definition exampleWorld : World :=
  {| http_Get := fun n _ =>
                   match n with
                   | O => served fullPage
                   | _ => served shortPage
                   end;
     os_Getenv := exampleEnv;
     smtp_SendMail := rejectingRelay |}.

(** The site serves [fullPage] and then pages without items. *)
Definition endingWorld : World :=
  {| http_Get := fun n _ =>
                   match n with
                   | O => served fullPage
                   | _ => served []
                   end;
     os_Getenv := exampleEnv;
     smtp_SendMail := rejectingRelay |}.

(** The site serves [fullPage] and then answers with status 503. *)
Definition failingWorld : World :=
  {| http_Get := fun n _ =>
                   match n with
                   | O => served fullPage
                   | _ => GetOk {| StatusCode := 503; Body := ParseOk [] |}
                   end;
     os_Getenv := exampleEnv;
     smtp_SendMail := rejectingRelay |}.

(** Two postings as [main] accumulates them. *)
Definition twoJobs : list JobPosting :=
  [{| Title := lit "Software Engineer, Payments"; URL := lit "/positions/1" |};
   {| Title := lit "Software Engineer II"; URL := lit "/positions/4" |}].

(** ** Notions for the runs in any world *)

(** The [n]-th listing page is served with ten items or more. *)
Definition fullAt (w : World) (n : nat) : Prop :=
  exists jobItems, serves w n jobItems /\ 10 <= length jobItems.

(** The [n]-th listing page is served with fewer than ten items. *)
Definition shortAt (w : World) (n : nat) : Prop :=
  exists jobItems, serves w n jobItems /\ length jobItems < 10.

(** What the loop gives when it starts a turn after [n] turns with the list
    [allJobs] and the trace [tr], and [m] full pages follow: it ran out of
    turns, or the page after them was a fatal error, or it had fewer than
    ten items. *)
Definition loopOutcome (w : World) (n : nat) (allJobs : list JobPosting)
           (tr : list event) (m : nat)
           (res : Outcome (list JobPosting) * list event) : Prop :=
  match res with
  | (OutOfFuel, tr') => tr' = tr ++ fetchesFrom n m
  | (Exited code, tr') =>
      code = 1%Z /\ fatalAt w (n + m)
      /\ exists text, tr' = tr ++ fetchesFrom n (S m) ++ [LogFatal text]
  | (Returned allJobs', tr') =>
      shortAt w (n + m)
      /\ (exists note,
             (note = emptyPageNote \/ note = lastPageNote)
             /\ tr' = tr ++ fetchesFrom n (S m) ++ [note])
      /\ allJobs'
         = allJobs
           ++ flat_map (fun i => pagePostings (pageItems w i)) (seq n (S m))
  end.

(** The site serves [fullPage] for every request. *)
Definition endlessWorld : World :=
  {| http_Get := fun _ _ => served fullPage;
     os_Getenv := exampleEnv;
     smtp_SendMail := rejectingRelay |}.

(** The integer that a decimal text denotes. *)
Definition atoi (s : gostring) : option Z :=
  option_map Z.of_int (NilZero.int_of_string (string_of_list_ascii s)).

(** The page number that the URL of a listing page carries. *)
Definition pageOfURL (url : gostring) : option Z :=
  if strings.HasPrefix url baseURL
  then atoi (skipn (length baseURL) url)
  else None.

(** The text in [body] before the entries of the postings. *)
Definition opening (jobPostings : list JobPosting) : gostring :=
  match jobPostings with
  | [] => lit "Hello," ++ [LF; LF]
          ++ lit "No current job postings found today." ++ [LF]
  | _ :: _ => greeting
  end.

(** A byte that [TrimSpace] may remove: an ASCII white space byte, or a
    byte that is not ASCII. *)
Definition blankByte (c : ascii) : bool :=
  strings.asciiSpace (byteZ c) || (128 <=? byteZ c)%Z.

(** The first and the last byte of a term are not blank. *)
Definition solidEnds (term : gostring) : bool :=
  match term, rev term with
  | c1 :: _, c2 :: _ => negb (blankByte c1) && negb (blankByte c2)
  | _, _ => false
  end.

(** * Properties *)

(** ** [strings.Contains] *)

Section ContainsFacts.

Open Scope Z_scope.

Lemma HasPrefix_iff (s prefix : gostring) :
  strings.HasPrefix s prefix = true <-> exists rest, s = prefix ++ rest.
Proof.
  revert s; induction prefix as [|p prefix IH]; intros s; simpl.
  - split; [intros _; now exists s | reflexivity].
  - destruct s as [|c s].
    + split; [discriminate | intros [rest H]; discriminate].
    + rewrite andb_true_iff, Ascii.eqb_eq, IH. split.
      * intros [-> [rest ->]]. now exists rest.
      * intros [rest H]. injection H as -> ->. split; [reflexivity|].
        now exists rest.
Qed.

Lemma Index_lower (s substr : gostring) : -1 <= strings.Index s substr.
Proof.
  induction s as [|c s IH]; simpl.
  - destruct (strings.HasPrefix [] substr); lia.
  - destruct (strings.HasPrefix (c :: s) substr); [lia|].
    destruct (strings.Index s substr <? 0) eqn:E; [lia|].
    apply Z.ltb_ge in E. lia.
Qed.

Lemma Substring_nil (sub : gostring) :
  Substring sub [] -> strings.HasPrefix [] sub = true.
Proof.
  intros (before & after & H). symmetry in H.
  apply app_eq_nil in H as [_ H]. apply app_eq_nil in H as [-> _].
  reflexivity.
Qed.

Lemma Substring_cons (sub : gostring) (c : ascii) (s : gostring) :
  Substring sub (c :: s) <->
  (exists rest, c :: s = sub ++ rest) \/ Substring sub s.
Proof.
  split.
  - intros (before & after & H). destruct before as [|b before].
    + left. now exists after.
    + right. injection H as _ H. now exists before, after.
  - intros [[rest H] | (before & after & H)].
    + exists [], rest. exact H.
    + exists (c :: before), after. simpl. now rewrite H.
Qed.

Lemma Contains_iff (s substr : gostring) :
  strings.Contains s substr = true <-> Substring substr s.
Proof.
  unfold strings.Contains. rewrite Z.leb_le.
  induction s as [|c s IH]; simpl.
  - destruct (strings.HasPrefix [] substr) eqn:E.
    + split; [intros _|lia]. apply HasPrefix_iff in E as [rest E].
      now exists [], rest.
    + split; [lia|]. intros H. apply Substring_nil in H. congruence.
  - rewrite Substring_cons, <- HasPrefix_iff, <- IH.
    destruct (strings.HasPrefix (c :: s) substr) eqn:E.
    + split; [now left | lia].
    + pose proof (Index_lower s substr) as L.
      destruct (strings.Index s substr <? 0) eqn:F.
      * apply Z.ltb_lt in F. split; [lia|]. intros [H|H]; [discriminate|lia].
      * apply Z.ltb_ge in F. split; [now right | lia].
Qed.

Lemma Contains_false_iff (s substr : gostring) :
  strings.Contains s substr = false <-> ~ Substring substr s.
Proof.
  rewrite <- Contains_iff. destruct (strings.Contains s substr); split;
    congruence.
Qed.

End ContainsFacts.

(** ** UTF-8 decoding and [strings.TrimSpace] *)

Section TrimSpaceFacts.

Open Scope Z_scope.

Lemma byteZ_range c : 0 <= byteZ c < 256.
Proof.
  unfold byteZ. pose proof (N_ascii_bounded c). lia.
Qed.

Lemma RuneStart_byte c :
  utf8.RuneStart (byteZ c) = negb ((128 <=? byteZ c) && (byteZ c <=? 191)).
Proof.
  destruct c as [[] [] [] [] [] [] [] []]; reflexivity.
Qed.

Ltac first_cases b :=
  unfold utf8.first;
  destruct (b <? 128) eqn:?; [|
  destruct (b <? 194) eqn:?; [|
  destruct (b <? 224) eqn:?; [|
  destruct (b =? 224) eqn:?; [|
  destruct (b <? 237) eqn:?; [|
  destruct (b =? 237) eqn:?; [|
  destruct (b <? 240) eqn:?; [|
  destruct (b =? 240) eqn:?; [|
  destruct (b <? 244) eqn:?; [|
  destruct (b =? 244) eqn:?]]]]]]]]];
  unfold utf8.as_, utf8.xx, utf8.s1, utf8.s2, utf8.s3, utf8.s4, utf8.s5, utf8.s6, utf8.s7.

Ltac table_compute :=
  repeat match goal with
  | |- context [Z.to_nat (Z.land ?x 7)] =>
      let v := eval vm_compute in (Z.to_nat (Z.land x 7)) in
      change (Z.to_nat (Z.land x 7)) with v
  | |- context [utf8.acceptRanges (Z.shiftr ?x 4)] =>
      let v := eval vm_compute in (utf8.acceptRanges (Z.shiftr x 4)) in
      change (utf8.acceptRanges (Z.shiftr x 4)) with v
  | |- context [240 <=? ?x] =>
      let v := eval vm_compute in (240 <=? x) in
      change (240 <=? x) with v
  | |- context [?x =? 241] =>
      let v := eval vm_compute in (x =? 241) in
      change (x =? 241) with v
  end.

Ltac case_if :=
  match goal with
  | |- context [if ?b then _ else _] => destruct b eqn:?
  end.

Ltac dec_simpl := cbn [length app Nat.ltb Nat.leb nth fst snd utf8.locb utf8.hicb].

Lemma Decode_app t u :
  t <> [] ->
  utf8.DecodeRuneInString (t ++ u) = utf8.DecodeRuneInString t
  \/ utf8.DecodeRuneInString t = (utf8.RuneError, 1%nat).
Proof.
  intros Ht. destruct t as [|c0 t]; [congruence|]. clear Ht.
  unfold utf8.DecodeRuneInString, byteAt.
  dec_simpl.
  first_cases (byteZ c0); unfold utf8.as_, utf8.xx; table_compute; dec_simpl; auto.
  all: destruct t as [|c1 [|c2 [|c3 t]]]; dec_simpl; auto;
    repeat (case_if; auto).
Qed.

Lemma Decode_nil : utf8.DecodeRuneInString [] = (utf8.RuneError, 0%nat).
Proof. reflexivity. Qed.

Lemma Decode_size s :
  s <> [] ->
  (1 <= snd (utf8.DecodeRuneInString s) <= length s)%nat.
Proof.
  intros Hs. destruct s as [|c0 t]; [congruence|]. clear Hs.
  unfold utf8.DecodeRuneInString, byteAt.
  dec_simpl.
  first_cases (byteZ c0); unfold utf8.as_, utf8.xx; table_compute; dec_simpl;
    try lia.
  all: destruct t as [|c1 [|c2 [|c3 t]]]; dec_simpl; try lia;
    repeat (case_if; dec_simpl; try lia).
Qed.

Lemma Decode_ascii c s :
  byteZ c < 128 -> utf8.DecodeRuneInString (c :: s) = (byteZ c, 1%nat).
Proof.
  intros H. unfold utf8.DecodeRuneInString, byteAt. dec_simpl.
  unfold utf8.first. apply Z.ltb_lt in H. rewrite H. reflexivity.
Qed.

Lemma Decode_wide c s :
  (2 <= snd (utf8.DecodeRuneInString (c :: s)))%nat -> 194 <= byteZ c <= 244.
Proof.
  unfold utf8.DecodeRuneInString, byteAt. dec_simpl.
  pose proof (byteZ_range c).
  first_cases (byteZ c); unfold utf8.as_, utf8.xx; table_compute; dec_simpl;
    try lia.
Qed.

Lemma Decode_high_alone c s :
  128 <= byteZ c -> startsRune s ->
  utf8.DecodeRuneInString (c :: s) = (utf8.RuneError, 1%nat).
Proof.
  intros H Hs. unfold utf8.DecodeRuneInString, byteAt. dec_simpl.
  first_cases (byteZ c); unfold utf8.as_, utf8.xx; table_compute; dec_simpl;
    try reflexivity; try lia.
  all: destruct s as [|c1 s]; dec_simpl; try reflexivity.
  all: simpl in Hs; rewrite RuneStart_byte in Hs;
    apply negb_true_iff, andb_false_iff in Hs.
  all: pose proof (byteZ_range c1).
  all: replace ((byteZ c1 <? _) || (_ <? byteZ c1)) with true;
    [cbn [orb]; repeat case_if; reflexivity|].
  all: symmetry; apply orb_true_iff; rewrite !Z.ltb_lt;
    destruct Hs as [Hs|Hs]; [apply Z.leb_gt in Hs|apply Z.leb_gt in Hs]; lia.
Qed.

Lemma backScan_le before : (utf8.backScan before <= length before)%nat.
Proof.
  destruct before as [|c1 [|c2 [|c3 r]]]; simpl; repeat case_if; simpl; lia.
Qed.

Lemma firstn_length_app {A} (l l' : list A) : firstn (length l) (l ++ l') = l.
Proof.
  rewrite firstn_app, Nat.sub_diag, firstn_all. simpl. apply app_nil_r.
Qed.

Lemma skipn_length_app {A} (l l' : list A) : skipn (length l) (l ++ l') = l'.
Proof.
  rewrite skipn_app, Nat.sub_diag, skipn_all. reflexivity.
Qed.

Lemma DecodeLast_split p :
  p <> [] ->
  exists front w r,
    p = front ++ w /\ utf8.DecodeLastRuneInString p = (r, length w)
    /\ lastRune w r.
Proof.
  intros Hp. unfold utf8.DecodeLastRuneInString.
  destruct (rev p) as [|c before] eqn:E.
  - apply (f_equal (@rev ascii)) in E. rewrite rev_involutive in E.
    simpl in E. congruence.
  - assert (Hpc : p = rev before ++ [c]).
    { apply (f_equal (@rev ascii)) in E. rewrite rev_involutive in E.
      exact E. }
    destruct (byteZ c <? utf8.RuneSelf) eqn:Hc.
    + exists (rev before), [c], (byteZ c). repeat split; auto.
      apply Z.ltb_lt in Hc. eapply last_ascii; eauto.
    + apply Z.ltb_ge in Hc. unfold utf8.RuneSelf in Hc.
      set (k := S (utf8.backScan before)).
      assert (Hk : (k <= length (rev p))%nat).
      { rewrite E. simpl. pose proof (backScan_le before). lia. }
      assert (Hw : length (utf8.lastn k p) = k).
      { unfold utf8.lastn. rewrite length_rev, length_firstn. lia. }
      assert (Hsplit : p = rev (skipn k (rev p)) ++ utf8.lastn k p).
      { unfold utf8.lastn. rewrite <- rev_app_distr, firstn_skipn.
        now rewrite rev_involutive. }
      destruct (utf8.DecodeRuneInString (utf8.lastn k p)) as [r size] eqn:D.
      destruct (size =? k)%nat eqn:Hs.
      * apply Nat.eqb_eq in Hs. subst size.
        exists (rev (skipn k (rev p))), (utf8.lastn k p), r.
        rewrite Hw. repeat split; auto.
        destruct (utf8.backScan before) as [|b] eqn:Hb.
        -- assert (Hl : utf8.lastn k p = [c]).
           { unfold utf8.lastn, k. rewrite E. reflexivity. }
           rewrite Hl in D. rewrite Decode_high_alone in D by (simpl; auto).
           assert (Hr : r = utf8.RuneError) by congruence.
           eapply last_invalid; eauto.
        -- apply last_wide; rewrite Hw; [unfold k; lia | exact D].
      * exists (rev before), [c], utf8.RuneError. repeat split; auto.
        eapply last_invalid; eauto.
Qed.

Lemma startsRune_lastRune w r tail :
  lastRune w r -> r <> utf8.RuneError -> startsRune (w ++ tail).
Proof.
  intros [c -> Hc _ | c -> Hc -> | Hlen D] Hr.
  - simpl. rewrite RuneStart_byte. apply negb_true_iff, andb_false_iff.
    left. apply Z.leb_gt. lia.
  - congruence.
  - destruct w as [|c w]; [simpl in Hlen; lia|].
    assert (H : (2 <= snd (utf8.DecodeRuneInString (c :: w)))%nat)
      by (rewrite D; exact Hlen).
    apply Decode_wide in H. simpl. rewrite RuneStart_byte.
    apply negb_true_iff, andb_false_iff. right. apply Z.leb_gt. lia.
Qed.

Section TrimFuncFacts.

Variable f : Z -> bool.
Hypothesis f_RuneError : f utf8.RuneError = false.

Lemma eqb_false_r (b : bool) : Bool.eqb b false = negb b.
Proof. now destruct b. Qed.

Lemma lastIndexFunc_upto_spec fuel :
  forall p, (length p <= fuel)%nat ->
  match strings.lastIndexFunc_upto fuel p f false with
  | None => True
  | Some i =>
      exists front w spaces r,
        p = front ++ w ++ spaces /\ i = length front
        /\ utf8.DecodeLastRuneInString (front ++ w) = (r, length w)
        /\ lastRune w r /\ f r = false /\ startsRune spaces
  end.
Proof.
  induction fuel as [|fuel IH]; intros p Hp; simpl; [exact I|].
  destruct p as [|c p']; [exact I|].
  set (p := c :: p') in *.
  destruct (DecodeLast_split p) as (front & w & r & Hsplit & D & Hw);
    [discriminate|].
  rewrite D.
  assert (Hlw : (1 <= length w)%nat).
  { destruct Hw as [? -> | ? -> |]; simpl; lia. }
  assert (Hi : (length p - length w = length front)%nat).
  { rewrite Hsplit at 1. rewrite length_app. lia. }
  rewrite Hi. rewrite eqb_false_r.
  destruct (f r) eqn:Hf; simpl.
  - assert (Hfront : firstn (length front) p = front).
    { rewrite Hsplit. apply firstn_length_app. }
    rewrite Hfront.
    assert (Hlen : (length front <= fuel)%nat).
    { apply (f_equal (@length ascii)) in Hsplit.
      rewrite length_app in Hsplit. lia. }
    specialize (IH front Hlen).
    destruct (strings.lastIndexFunc_upto fuel front f false) as [i|];
      [|exact I].
    destruct IH as (front' & w' & spaces' & r' & E & -> & D' & Hw' & Hf' & Hs').
    exists front', w', (spaces' ++ w), r'. repeat split; auto.
    + rewrite Hsplit, E. now rewrite <- !app_assoc.
    + destruct spaces' as [|c' sp]; [|exact Hs'].
      simpl. rewrite <- (app_nil_r w).
      apply startsRune_lastRune with (r := r); [exact Hw|].
      intros ->. congruence.
  - exists front, w, [], r. rewrite app_nil_r, <- Hsplit.
    repeat split; auto.
Qed.

Lemma byteAt_app_length front w tail c :
  byteAt (front ++ (c :: w) ++ tail) (length front) = byteZ c.
Proof.
  unfold byteAt. rewrite app_nth2, Nat.sub_diag by lia. reflexivity.
Qed.

Lemma TrimRightFunc_spec s :
  (exists tail, s = strings.TrimRightFunc s f ++ tail)
  /\ (strings.TrimRightFunc s f = []
      \/ f (fst (utf8.DecodeLastRuneInString (strings.TrimRightFunc s f)))
         = false).
Proof.
  unfold strings.TrimRightFunc, strings.lastIndexFunc.
  pose proof (lastIndexFunc_upto_spec (length s) s (le_n _)) as H.
  destruct (strings.lastIndexFunc_upto (length s) s f false) as [i|].
  2:{ split; [exists s; reflexivity | left; reflexivity]. }
  destruct H as (front & w & spaces & r & E & -> & D & Hw & Hf & Hs).
  assert (Hres : forall n, n = length w ->
                           firstn (length front + n) s = front ++ w).
  { intros n ->. rewrite E, app_assoc, <- length_app.
    apply firstn_length_app. }
  match goal with
  | |- context [if ?c then ?a else ?b] =>
      assert (Hgoal : (if c then a else b) = front ++ w)
  end.
  { assert (Hskip : skipn (length front) s = w ++ spaces).
    { rewrite E. apply skipn_length_app. }
    rewrite Hskip.
    destruct Hw as [c -> Hc _ | c -> Hc _ | Hlen Dw].
    - replace (byteAt s (length front)) with (byteZ c)
        by (rewrite E; symmetry; apply byteAt_app_length).
      unfold utf8.RuneSelf.
      replace (128 <=? byteZ c) with false by (symmetry; apply Z.leb_gt; lia).
      now apply Hres.
    - replace (byteAt s (length front)) with (byteZ c)
        by (rewrite E; symmetry; apply byteAt_app_length).
      unfold utf8.RuneSelf.
      replace (128 <=? byteZ c) with true by (symmetry; apply Z.leb_le; lia).
      simpl app. rewrite Decode_high_alone by assumption.
      now apply Hres.
    - destruct w as [|c w]; [simpl in Hlen; lia|].
      replace (byteAt s (length front)) with (byteZ c)
        by (rewrite E; symmetry; apply byteAt_app_length).
      unfold utf8.RuneSelf.
      assert (Hc : 194 <= byteZ c <= 244).
      { apply (Decode_wide c w). rewrite Dw. exact Hlen. }
      replace (128 <=? byteZ c) with true by (symmetry; apply Z.leb_le; lia).
      destruct (Decode_app (c :: w) spaces) as [Ha|Ha]; [discriminate| |].
      + rewrite Ha, Dw. now apply Hres.
      + rewrite Dw in Ha. injection Ha as _ Ha. simpl in Hlen, Ha. lia. }
  rewrite Hgoal. split.
  - exists spaces. rewrite E. now rewrite app_assoc.
  - right. rewrite D. exact Hf.
Qed.


Lemma indexFunc_from_spec fuel :
  forall rest i, (length rest <= fuel)%nat ->
  match strings.indexFunc_from fuel rest i f false with
  | None => True
  | Some j =>
      exists d, j = (i + d)%nat /\ skipn d rest <> []
                /\ f (fst (utf8.DecodeRuneInString (skipn d rest))) = false
  end.
Proof.
  induction fuel as [|fuel IH]; intros rest i Hlen; simpl; [exact I|].
  destruct rest as [|c rest']; [exact I|].
  set (rest := c :: rest') in *.
  destruct (utf8.DecodeRuneInString rest) as [r size] eqn:D.
  rewrite eqb_false_r.
  destruct (f r) eqn:Hf; simpl.
  - pose proof (Decode_size rest ltac:(discriminate)) as Hsize.
    rewrite D in Hsize. simpl in Hsize.
    assert (Hl : (length (skipn size rest) <= fuel)%nat).
    { rewrite length_skipn. change (length rest <= S fuel)%nat in Hlen. lia. }
    specialize (IH (skipn size rest) (i + size)%nat Hl).
    destruct (strings.indexFunc_from fuel (skipn size rest) (i + size) f false)
      as [j|]; [|exact I].
    destruct IH as (d & -> & Hne & Hd).
    exists (size + d)%nat. rewrite Nat.add_comm with (n := size).
    rewrite <- skipn_skipn. repeat split; auto. lia.
  - exists 0%nat. simpl. rewrite D. repeat split; auto. discriminate.
Qed.

Lemma TrimLeftFunc_spec s :
  (exists head, s = head ++ strings.TrimLeftFunc s f)
  /\ (strings.TrimLeftFunc s f = []
      \/ f (fst (utf8.DecodeRuneInString (strings.TrimLeftFunc s f)))
         = false).
Proof.
  unfold strings.TrimLeftFunc, strings.indexFunc.
  pose proof (indexFunc_from_spec (length s) s 0 (le_n _)) as H.
  destruct (strings.indexFunc_from (length s) s 0 f false) as [j|].
  - destruct H as (d & -> & _ & Hd). simpl. split; [|now right].
    exists (firstn d s). now rewrite firstn_skipn.
  - split; [|now left]. exists s. now rewrite app_nil_r.
Qed.

(** A prefix of a string that starts with a rune outside [f] starts with
    such a rune too. *)
Lemma Decode_prefix_keeps q tail :
  q <> [] ->
  f (fst (utf8.DecodeRuneInString (q ++ tail))) = false ->
  f (fst (utf8.DecodeRuneInString q)) = false.
Proof.
  intros Hq H. destruct (Decode_app q tail Hq) as [E|E].
  - now rewrite <- E.
  - now rewrite E.
Qed.

Lemma TrimFunc_spec s :
  strings.TrimFunc s f = []
  \/ (f (fst (utf8.DecodeRuneInString (strings.TrimFunc s f))) = false
      /\ f (fst (utf8.DecodeLastRuneInString (strings.TrimFunc s f)))
         = false).
Proof.
  unfold strings.TrimFunc.
  destruct (TrimLeftFunc_spec s) as [_ Hl].
  destruct (TrimRightFunc_spec (strings.TrimLeftFunc s f)) as [[tail Ht] Hr].
  destruct Hr as [Hr|Hr]; [now left|].
  destruct (strings.TrimRightFunc (strings.TrimLeftFunc s f) f) as [|c q] eqn:E;
    [now left|].
  right. split; [|exact Hr].
  destruct Hl as [Hl|Hl].
  - rewrite Hl in Ht. discriminate.
  - apply Decode_prefix_keeps with (tail := tail); [discriminate|].
    now rewrite <- Ht.
Qed.

End TrimFuncFacts.

Lemma IsSpace_RuneError : unicode.IsSpace utf8.RuneError = false.
Proof. reflexivity. Qed.

Lemma IsSpace_ascii c :
  byteZ c < 128 -> unicode.IsSpace (byteZ c) = strings.asciiSpace (byteZ c).
Proof.
  intros H. pose proof (byteZ_range c). generalize dependent (byteZ c).
  intros b H H0. unfold unicode.IsSpace, strings.asciiSpace, unicode.MaxLatin1.
  replace ((0 <=? b) && (b <=? 255)) with true
    by (symmetry; apply andb_true_iff; rewrite !Z.leb_le; lia).
  replace (b =? 133) with false by (symmetry; apply Z.eqb_neq; lia).
  replace (b =? 160) with false by (symmetry; apply Z.eqb_neq; lia).
  now rewrite !orb_false_r.
Qed.

Lemma skipAsciiSpace_spec s :
  (exists skipped, s = skipped ++ fst (strings.skipAsciiSpace s))
  /\ asciiStop (fst (strings.skipAsciiSpace s)) (snd (strings.skipAsciiSpace s)).
Proof.
  induction s as [|c s [[skipped IH] IHs]]; simpl.
  - split; [now exists []|constructor].
  - unfold utf8.RuneSelf. destruct (128 <=? byteZ c) eqn:Hc; simpl.
    + split; [now exists []|]. apply stop_high. now apply Z.leb_le.
    + apply Z.leb_gt in Hc.
      destruct (strings.asciiSpace (byteZ c)) eqn:Ha; simpl.
      * split; [|exact IHs]. exists (c :: skipped). simpl. now rewrite <- IH.
      * split; [now exists []|]. now apply stop_ascii.
Qed.

Lemma DecodeLast_ascii front c :
  byteZ c < 128 ->
  utf8.DecodeLastRuneInString (front ++ [c]) = (byteZ c, 1%nat).
Proof.
  intros H. unfold utf8.DecodeLastRuneInString.
  rewrite rev_app_distr. simpl. unfold utf8.RuneSelf.
  apply Z.ltb_lt in H. now rewrite H.
Qed.

Lemma asciiStop_false_cons c s :
  asciiStop (c :: s) false ->
  byteZ c < 128 /\ strings.asciiSpace (byteZ c) = false.
Proof. intros H. inversion H. auto. Qed.

Lemma TrimSpace_spec s : noSpaceAtEnds (strings.TrimSpace s).
Proof.
  unfold strings.TrimSpace, noSpaceAtEnds.
  destruct (skipAsciiSpace_spec s) as [_ H1].
  destruct (strings.skipAsciiSpace s) as [from_start flag1]. simpl in H1.
  destruct flag1.
  - apply TrimFunc_spec. exact IsSpace_RuneError.
  - destruct (skipAsciiSpace_spec (rev from_start)) as [[skipped E] H2].
    destruct (strings.skipAsciiSpace (rev from_start)) as [upto_stop flag2].
    simpl in E, H2.
    assert (E' : from_start = rev upto_stop ++ rev skipped).
    { rewrite <- rev_app_distr, <- E. now rewrite rev_involutive. }
    assert (Hfirst : forall q tail,
               q <> [] -> from_start = q ++ tail ->
               unicode.IsSpace (fst (utf8.DecodeRuneInString q)) = false).
    { intros [|c' q] tail Hq Hqt; [congruence|].
      rewrite Hqt in H1. apply asciiStop_false_cons in H1 as [Hc Ha].
      rewrite Decode_ascii by assumption. simpl.
      rewrite IsSpace_ascii; assumption. }
    destruct flag2.
    + destruct (TrimRightFunc_spec unicode.IsSpace IsSpace_RuneError
                  (rev upto_stop)) as [[tail Ht] Hr].
      destruct Hr as [Hr|Hr]; [now left|].
      destruct (strings.TrimRightFunc (rev upto_stop) unicode.IsSpace)
        as [|c q] eqn:Eq; [now left|].
      right. split; [|exact Hr].
      apply Hfirst with (tail := tail ++ rev skipped); [discriminate|].
      rewrite E', Ht. now rewrite <- app_assoc.
    + destruct upto_stop as [|c rest]; [now left|].
      apply asciiStop_false_cons in H2 as [Hc Ha].
      right. split.
      * apply Hfirst with (tail := rev skipped); [|exact E'].
        simpl. intros Hnil. apply app_eq_nil in Hnil as [_ ?]. discriminate.
      * simpl rev. rewrite DecodeLast_ascii by assumption. simpl.
        rewrite IsSpace_ascii; assumption.
Qed.

Lemma IsSpace_cases r : unicode.IsSpace r = true -> In r spaceRunes.
Proof.
  unfold unicode.IsSpace, unicode.isExcludingLatin, unicode.White_Space_R16,
    unicode.MaxLatin1, spaceRunes.
  destruct ((0 <=? r) && (r <=? 255)) eqn:L; simpl.
  - rewrite !orb_true_iff, !Z.eqb_eq. intros H.
    repeat (destruct H as [H|H]; [|subst; tauto]). subst; tauto.
  - rewrite !orb_true_iff, !andb_true_iff, !Z.leb_le. intros H.
    assert (Hr : r = 5760 \/ r = 8192 \/ r = 8193 \/ r = 8194 \/ r = 8195
                 \/ r = 8196 \/ r = 8197 \/ r = 8198 \/ r = 8199 \/ r = 8200
                 \/ r = 8201 \/ r = 8202 \/ r = 8232 \/ r = 8233 \/ r = 8239
                 \/ r = 8287 \/ r = 12288) by lia.
    clear H. repeat (destruct Hr as [Hr|Hr]; [subst; tauto|]). subst; tauto.
Qed.

Lemma EncodeRune_not_nil r : utf8.EncodeRune r <> [].
Proof.
  unfold utf8.EncodeRune. repeat case_if; discriminate.
Qed.

Lemma Decode_encoded_space r rest :
  unicode.IsSpace r = true ->
  utf8.DecodeRuneInString (utf8.EncodeRune r ++ rest)
  = (r, length (utf8.EncodeRune r)).
Proof.
  intros H. apply IsSpace_cases in H. unfold spaceRunes in H. simpl in H.
  repeat (destruct H as [H|H];
          [subst r;
           match goal with
           | |- utf8.DecodeRuneInString (?w ++ _) = _ =>
               destruct (Decode_app w rest (EncodeRune_not_nil _)) as [E|E];
               [rewrite E; reflexivity | discriminate E]
           end |]).
  contradiction.
Qed.

Lemma DecodeLast_encoded_space r front :
  unicode.IsSpace r = true ->
  utf8.DecodeLastRuneInString (front ++ utf8.EncodeRune r)
  = (r, length (utf8.EncodeRune r)).
Proof.
  intros H. apply IsSpace_cases in H. unfold spaceRunes in H. simpl in H.
  unfold utf8.DecodeLastRuneInString, utf8.lastn. rewrite !rev_app_distr.
  repeat (destruct H as [H|H]; [subst r; reflexivity |]).
  contradiction.
Qed.

Lemma noSpaceAtEnds_trimmed q : noSpaceAtEnds q -> trimmed q.
Proof.
  intros [->|[Hd Hl]]; split.
  - intros (r & rest & _ & E). symmetry in E. apply app_eq_nil in E as [E _].
    now apply EncodeRune_not_nil in E.
  - intros (r & front & _ & E). symmetry in E. apply app_eq_nil in E as [_ E].
    now apply EncodeRune_not_nil in E.
  - intros (r & rest & Hr & ->).
    rewrite Decode_encoded_space in Hd by assumption. simpl in Hd. congruence.
  - intros (r & front & Hr & ->).
    rewrite DecodeLast_encoded_space in Hl by assumption. simpl in Hl.
    congruence.
Qed.

Lemma TrimSpace_trimmed s : trimmed (strings.TrimSpace s).
Proof. apply noSpaceAtEnds_trimmed, TrimSpace_spec. Qed.

Lemma TrimFunc_Substring s :
  Substring (strings.TrimFunc s unicode.IsSpace) s.
Proof.
  unfold strings.TrimFunc.
  destruct (TrimLeftFunc_spec unicode.IsSpace s) as [[head Hh] _].
  destruct (TrimRightFunc_spec unicode.IsSpace IsSpace_RuneError
              (strings.TrimLeftFunc s unicode.IsSpace)) as [[tail Ht] _].
  exists head, tail. now rewrite <- Ht.
Qed.

(** [TrimSpace] gives a part of its argument. *)
Lemma TrimSpace_Substring s : Substring (strings.TrimSpace s) s.
Proof.
  unfold strings.TrimSpace.
  destruct (skipAsciiSpace_spec s) as [[skipped E] _].
  destruct (strings.skipAsciiSpace s) as [from_start flag1]. simpl in E.
  destruct flag1.
  - destruct (TrimFunc_Substring from_start) as (before & after & H).
    exists (skipped ++ before), after. rewrite E, H at 1.
    now rewrite <- app_assoc.
  - destruct (skipAsciiSpace_spec (rev from_start)) as [[skipped' E'] _].
    destruct (strings.skipAsciiSpace (rev from_start)) as [upto_stop flag2].
    simpl in E'.
    assert (E2 : from_start = rev upto_stop ++ rev skipped').
    { rewrite <- rev_app_distr, <- E'. now rewrite rev_involutive. }
    destruct flag2.
    + destruct (TrimRightFunc_spec unicode.IsSpace IsSpace_RuneError
                  (rev upto_stop)) as [[tail Ht] _].
      exists skipped, (tail ++ rev skipped').
      rewrite E, E2, Ht at 1. now rewrite <- !app_assoc.
    + exists skipped, (rev skipped'). now rewrite E, E2 at 1.
Qed.

Example TrimSpace_ascii :
  strings.TrimSpace (lit "  Software Engineer, Payments  ")
  = lit "Software Engineer, Payments".
Proof. reflexivity. Qed.

(** A no-break space (U+00A0) in front and an em space (U+2003) and a tab
    behind are removed; a space inside stays. *)
Example TrimSpace_unicode :
  strings.TrimSpace
    (map byteOfZ [194; 160] ++ lit "Software Engineer"
     ++ map byteOfZ [226; 128; 131; 9])
  = lit "Software Engineer".
Proof. reflexivity. Qed.

End TrimSpaceFacts.

(** ** The title filter *)

Lemma titleFilter_true_iff (title : gostring) :
  titleFilter title = true <->
  Substring (lit "Software Engineer") title
  /\ ~ Substring (lit "Senior") title
  /\ ~ Substring (lit "Staff") title
  /\ ~ Substring (lit "Sr.") title
  /\ ~ Substring (lit "Principal") title
  /\ ~ Substring (lit "Android") title
  /\ ~ Substring (lit "iOS") title.
Proof.
  unfold titleFilter.
  rewrite !andb_true_iff, !negb_true_iff, !Contains_false_iff, Contains_iff.
  tauto.
Qed.

Lemma titleFilter_wanted (title : gostring) :
  titleFilter title = true <-> wanted title.
Proof.
  rewrite titleFilter_true_iff. unfold wanted, exclusions.
  split.
  - intros (H & H1 & H2 & H3 & H4 & H5 & H6). split; [exact H|].
    intros term [<-|[<-|[<-|[<-|[<-|[<-|[]]]]]]]; assumption.
  - intros [H E]. repeat split; try exact H; apply E; simpl; tauto.
Qed.

(** C1.  For every title, the condition of the title filter holds if and
    only if the title contains "Software Engineer" and contains none of
    "Senior", "Staff", "Sr.", "Principal", "Android", "iOS" (the tests
    compare bytes, so they are case-sensitive); a title without
    "Software Engineer" is excluded whatever else it contains. *)
Theorem titleFilter_iff (title : gostring) :
  (titleFilter title = true <->
   Substring (lit "Software Engineer") title
   /\ ~ Substring (lit "Senior") title
   /\ ~ Substring (lit "Staff") title
   /\ ~ Substring (lit "Sr.") title
   /\ ~ Substring (lit "Principal") title
   /\ ~ Substring (lit "Android") title
   /\ ~ Substring (lit "iOS") title)
  /\ (~ Substring (lit "Software Engineer") title ->
      titleFilter title = false).
Proof.
  split.
  - apply titleFilter_true_iff.
  - intros H. destruct (titleFilter title) eqn:E; [|reflexivity].
    apply titleFilter_true_iff in E. tauto.
Qed.

Lemma titleFilter_iff_witness :
  ~ Substring (lit "Software Engineer") (lit "Engineering Manager, Android")
  /\ titleFilter (lit "Engineering Manager, Android") = false.
Proof.
  assert (H : ~ Substring (lit "Software Engineer")
                          (lit "Engineering Manager, Android"))
    by (apply Contains_false_iff; reflexivity).
  split; [exact H|].
  exact (proj2 (titleFilter_iff (lit "Engineering Manager, Android")) H).
Defined.

Example titleFilter_examples :
  titleFilter (lit "Software Engineer, Payments") = true
  /\ titleFilter (lit "Senior Software Engineer") = false
  /\ titleFilter (lit "Staff Software Engineer, Android") = false
  /\ titleFilter (lit "Software Engineer II") = true
  /\ titleFilter (lit "software engineer") = false.
Proof. repeat split. Qed.


(** ** The turns of the loop *)

Lemma requests_app tr tr' : requests (tr ++ tr') = requests tr ++ requests tr'.
Proof. apply filter_app. Qed.

Lemma mails_app tr tr' : mails (tr ++ tr') = mails tr ++ mails tr'.
Proof. apply filter_app. Qed.

Lemma callback_postingOf allJobs s :
  callback allJobs s
  = allJobs ++ (if titleFilter (Title (postingOf s)) then [postingOf s] else []).
Proof.
  unfold callback, postingOf. destruct (Attr_href s) as [link [|]]; simpl;
    destruct (titleFilter (strings.TrimSpace (Text s)));
    now rewrite ?app_nil_r.
Qed.

Lemma pagePostings_cons s jobItems :
  pagePostings (s :: jobItems)
  = (if titleFilter (Title (postingOf s)) then [postingOf s] else [])
    ++ pagePostings jobItems.
Proof.
  unfold pagePostings. cbn [map filter].
  now destruct (titleFilter (Title (postingOf s))).
Qed.

Lemma pagePostings_app l l' :
  pagePostings (l ++ l') = pagePostings l ++ pagePostings l'.
Proof. unfold pagePostings. now rewrite map_app, filter_app. Qed.

Lemma Each_callback jobItems allJobs :
  Each jobItems callback allJobs = allJobs ++ pagePostings jobItems.
Proof.
  unfold Each. revert allJobs.
  induction jobItems as [|s jobItems IH]; intros allJobs; simpl.
  - now rewrite app_nil_r.
  - rewrite IH, callback_postingOf, pagePostings_cons.
    now rewrite <- app_assoc.
Qed.

(** The four ways in which a turn of the loop ends. *)

Lemma iteration_fatal w page allJobs tr :
  (match http_Get w (length (requests tr)) (pageURL page) with
   | GetErr _ => True
   | GetOk resp =>
       StatusCode resp <> 200%Z \/ exists err, Body resp = ParseErr err
   end) ->
  exists text,
    iteration w page allJobs tr
    = (Exited 1, tr ++ fetchEvents page ++ [LogFatal text]).
Proof.
  intros H. unfold iteration, bind, Printf, emit, Get, Fatalf, fetchEvents.
  rewrite requests_app. simpl. rewrite app_nil_r.
  destruct (http_Get w (length (requests tr)) (pageURL page)) as [err|resp].
  - eexists. rewrite <- !app_assoc. reflexivity.
  - destruct (StatusCode resp =? 200)%Z eqn:E; simpl.
    + apply Z.eqb_eq in E. destruct H as [H|[err H]]; [contradiction|].
      rewrite H. eexists. rewrite <- !app_assoc. reflexivity.
    + eexists. rewrite <- !app_assoc. reflexivity.
Qed.

Lemma iteration_empty w page allJobs tr :
  http_Get w (length (requests tr)) (pageURL page)
  = GetOk {| StatusCode := 200; Body := ParseOk [] |} ->
  iteration w page allJobs tr
  = (Returned (Break, allJobs), tr ++ fetchEvents page ++ [emptyPageNote]).
Proof.
  intros H. unfold iteration, bind, Printf, emit, Get, ret, fetchEvents.
  rewrite requests_app. simpl. rewrite app_nil_r, H. simpl.
  rewrite <- !app_assoc. reflexivity.
Qed.

Lemma iteration_last w page allJobs tr jobItems :
  http_Get w (length (requests tr)) (pageURL page)
  = GetOk {| StatusCode := 200; Body := ParseOk jobItems |} ->
  0 < length jobItems < 10 ->
  iteration w page allJobs tr
  = (Returned (Break, allJobs ++ pagePostings jobItems),
     tr ++ fetchEvents page ++ [lastPageNote]).
Proof.
  intros H Hlen. unfold iteration, bind, Printf, emit, Get, ret, fetchEvents.
  rewrite requests_app. simpl. rewrite app_nil_r, H. simpl.
  replace (Z.of_nat (length jobItems) =? 0)%Z with false
    by (symmetry; apply Z.eqb_neq; lia).
  replace (Z.of_nat (length jobItems) <? 10)%Z with true
    by (symmetry; apply Z.ltb_lt; lia).
  rewrite Each_callback, <- !app_assoc. reflexivity.
Qed.

Lemma iteration_full w page allJobs tr jobItems :
  http_Get w (length (requests tr)) (pageURL page)
  = GetOk {| StatusCode := 200; Body := ParseOk jobItems |} ->
  10 <= length jobItems ->
  iteration w page allJobs tr
  = (Returned (Continue, allJobs ++ pagePostings jobItems),
     tr ++ fetchEvents page).
Proof.
  intros H Hlen. unfold iteration, bind, Printf, emit, Get, ret, fetchEvents.
  rewrite requests_app. simpl. rewrite app_nil_r, H. simpl.
  replace (Z.of_nat (length jobItems) =? 0)%Z with false
    by (symmetry; apply Z.eqb_neq; lia).
  replace (Z.of_nat (length jobItems) <? 10)%Z with false
    by (symmetry; apply Z.ltb_ge; lia).
  rewrite Each_callback, <- !app_assoc. reflexivity.
Qed.

Lemma requests_fetchEvents page :
  requests (fetchEvents page) = [HttpGet (pageURL page)].
Proof. reflexivity. Qed.

Lemma mails_fetchEvents page : mails (fetchEvents page) = [].
Proof. reflexivity. Qed.

Lemma fetchesFrom_S n k :
  fetchesFrom n (S k) = fetchesFrom n k ++ fetchEvents (pageAt (n + k)).
Proof.
  unfold fetchesFrom. rewrite seq_S, flat_map_app. reflexivity.
Qed.

Lemma requests_fetchesFrom n k :
  requests (fetchesFrom n k)
  = map (fun i => HttpGet (pageURL (pageAt i))) (seq n k).
Proof.
  unfold fetchesFrom. revert n.
  induction k as [|k IH]; intros n; cbn [seq flat_map map].
  - reflexivity.
  - rewrite requests_app, IH. reflexivity.
Qed.

Lemma mails_fetchesFrom n k : mails (fetchesFrom n k) = [].
Proof.
  unfold fetchesFrom. revert n.
  induction k as [|k IH]; intros n; cbn [seq flat_map map].
  - reflexivity.
  - rewrite mails_app, IH. reflexivity.
Qed.

Lemma length_requests_fetchesFrom n k : length (requests (fetchesFrom n k)) = k.
Proof. now rewrite requests_fetchesFrom, length_map, length_seq. Qed.

Lemma servesFull_app w full jobItems :
  servesFull w (full ++ [jobItems]) ->
  servesFull w full /\ serves w (length full) jobItems
  /\ 10 <= length jobItems.
Proof.
  intros H. split.
  - intros i items Hi. apply H. rewrite nth_error_app1; [exact Hi|].
    apply nth_error_Some. congruence.
  - apply H. rewrite nth_error_app2, Nat.sub_diag by lia. reflexivity.
Qed.

(** After [length full] turns the loop is at the head of the next turn. *)
Lemma loop_full w full :
  servesFull w full ->
  forall fuel,
    loop (length full + fuel) w 1 [] []
    = loop fuel w (pageAt (length full)) (flat_map pagePostings full)
           (fetchesFrom 0 (length full)).
Proof.
  induction full as [|jobItems full IH] using rev_ind; intros Hs fuel.
  - reflexivity.
  - apply servesFull_app in Hs as (Hfull & Hserves & Hlen).
    rewrite length_app, flat_map_app. simpl length.
    replace (length full + 1 + fuel) with (length full + S fuel) by lia.
    rewrite (IH Hfull (S fuel)). simpl loop. unfold bind.
    rewrite (iteration_full _ _ _ _ jobItems).
    + replace (length full + 1) with (S (length full)) by lia.
      rewrite fetchesFrom_S. simpl. now rewrite app_nil_r.
    + rewrite length_requests_fetchesFrom. exact Hserves.
    + exact Hlen.
Qed.

Lemma forEach_Print {A} (xs : list A) (text : A -> gostring) tr :
  forEach xs (fun x => Printf (text x)) tr
  = (Returned tt, tr ++ map (fun x => Stdout (text x)) xs).
Proof.
  revert tr. induction xs as [|x xs IH]; intros tr; simpl.
  - unfold ret. now rewrite app_nil_r.
  - unfold bind, Printf, emit. rewrite IH, <- app_assoc. reflexivity.
Qed.

Lemma sendDailyJobEmail_run w jobPostings tr :
  sendDailyJobEmail w jobPostings tr
  = (Returned (relayAnswer w jobPostings), tr ++ [mailEvent w jobPostings]).
Proof.
  unfold sendDailyJobEmail, bind, Send, ret, relayAnswer, mailEvent.
  change (smtpHost ++ lit ":" ++ smtpPort) with (lit "smtp.gmail.com:587").
  change smtpHost with (lit "smtp.gmail.com").
  change subject with (lit "Daily Job Postings").
  now destruct (smtp_SendMail w _ _ _ _ _).
Qed.

Lemma main_returned fuel w tr0 allJobs tr :
  loop fuel w 1 [] tr0 = (Returned allJobs, tr) ->
  main fuel w tr0
  = (Returned tt, tr ++ report allJobs ++ [mailEvent w allJobs]).
Proof.
  intros H. unfold main, bind. rewrite H. unfold Printf at 1, emit.
  rewrite forEach_Print, sendDailyJobEmail_run. unfold ret, report.
  rewrite <- !app_assoc. reflexivity.
Qed.

Lemma main_exited fuel w tr0 code tr :
  loop fuel w 1 [] tr0 = (Exited code, tr) ->
  main fuel w tr0 = (Exited code, tr).
Proof. intros H. unfold main, bind. now rewrite H. Qed.

Lemma loop_break fuel w page allJobs tr allJobs' tr' :
  iteration w page allJobs tr = (Returned (Break, allJobs'), tr') ->
  loop (S fuel) w page allJobs tr = (Returned allJobs', tr').
Proof. intros H. simpl. unfold bind. now rewrite H. Qed.

Lemma loop_exit fuel w page allJobs tr code tr' :
  iteration w page allJobs tr = (Exited code, tr') ->
  loop (S fuel) w page allJobs tr = (Exited code, tr').
Proof. intros H. simpl. unfold bind. now rewrite H. Qed.

Lemma pageRequests_fetches n : requests (fetchesFrom 0 n) = pageRequests n.
Proof. apply requests_fetchesFrom. Qed.

(** The loop at a page with fewer than ten items, after full pages. *)
Lemma loop_short w full last fuel :
  servesFull w full -> serves w (length full) last -> length last < 10 ->
  length full < fuel ->
  loop fuel w 1 [] []
  = (Returned (flat_map pagePostings (full ++ [last])),
     fetchesFrom 0 (S (length full))
     ++ [if (length last =? 0)%nat then emptyPageNote else lastPageNote]).
Proof.
  intros Hfull Hlast Hlen Hfuel.
  replace fuel with (length full + S (fuel - length full - 1)) by lia.
  rewrite (loop_full w full Hfull). rewrite flat_map_app. simpl flat_map.
  rewrite app_nil_r, fetchesFrom_S, <- app_assoc. simpl Nat.add.
  destruct last as [|s last].
  - apply loop_break. simpl. rewrite app_nil_r.
    apply iteration_empty. rewrite length_requests_fetchesFrom. exact Hlast.
  - apply loop_break. change ((length (s :: last) =? 0)%nat) with false.
    cbv iota. apply iteration_last.
    + rewrite length_requests_fetchesFrom. exact Hlast.
    + simpl in *. lia.
Qed.

(** The run on the example site: two requests, four postings kept, with the
    titles trimmed and the missing link left empty. *)
Example exampleWorld_loop :
  fst (loop 2 exampleWorld 1 [] [])
  = Returned
      [{| Title := lit "Software Engineer, Payments";
          URL := lit "/positions/1" |};
       {| Title := lit "Software Engineer II"; URL := lit "/positions/4" |};
       {| Title := lit "Software Engineer, Search"; URL := lit "" |};
       {| Title := lit "Software Engineer, Trust";
          URL := lit "/positions/11" |}]
  /\ requests (snd (loop 2 exampleWorld 1 [] []))
     = [HttpGet (baseURL ++ lit "1"); HttpGet (baseURL ++ lit "2")].
Proof. split; reflexivity. Qed.

(** C2.  When every page before it had ten items or more and a page with
    fewer than ten items is served, the loop ends after that page: it
    returns, the list holds the postings of all the pages, those of the last
    page included, and the pages were requested once each, in order.  The
    test is on the number of items of the page: a page with ten items or
    more of which none passes the filter is followed by the request for the
    next page, and from any state of the loop a page with fewer than ten
    items ends it with the postings of that page added. *)
Theorem pagination_stops_below_ten w full last fuel :
  servesFull w full ->
  serves w (length full) last ->
  length last < 10 ->
  length full < fuel ->
  (exists tr,
      loop fuel w 1 [] []
      = (Returned (flat_map pagePostings (full ++ [last])), tr)
      /\ requests tr = pageRequests (S (length full))
      /\ forall i jobItems,
           nth_error full i = Some jobItems -> pagePostings jobItems = [] ->
           In (HttpGet (pageURL (pageAt (S i)))) (requests tr))
  /\ forall page allJobs tr0 fuel',
       http_Get w (length (requests tr0)) (pageURL page) = served last ->
       fst (loop (S fuel') w page allJobs tr0)
       = Returned (allJobs ++ pagePostings last).
Proof.
  intros Hfull Hlast Hlen Hfuel. split.
  - eexists. split; [|split].
    + apply loop_short; assumption.
    + rewrite requests_app, pageRequests_fetches.
      destruct (length last =? 0)%nat; simpl; now rewrite app_nil_r.
    + intros i jobItems Hi _. rewrite requests_app, pageRequests_fetches.
      apply in_or_app. left. unfold pageRequests.
      apply in_map_iff. exists (S i). split; [reflexivity|].
      apply in_seq.
      assert (i < length full) by (apply nth_error_Some; congruence).
      lia.
  - intros page allJobs tr0 fuel' H. destruct last as [|s last].
    + rewrite (loop_break fuel' w page allJobs tr0 _ _
                 (iteration_empty w page allJobs tr0 H)).
      simpl. now rewrite app_nil_r.
    + rewrite (loop_break fuel' w page allJobs tr0 _ _
                 (iteration_last w page allJobs tr0 (s :: last) H
                    ltac:(simpl in *; lia))).
      reflexivity.
Qed.

Lemma servesFull_one w jobItems :
  serves w 0 jobItems -> 10 <= length jobItems -> servesFull w [jobItems].
Proof.
  intros Hs Hl [|[|i]] items H; simpl in H; try discriminate.
  injection H as <-. now split.
Defined.

Lemma pagination_stops_below_ten_witness :
  servesFull exampleWorld [fullPage]
  /\ serves exampleWorld 1 shortPage
  /\ length shortPage < 10
  /\ 1 < 2
  /\ (exists tr,
         loop 2 exampleWorld 1 [] []
         = (Returned (flat_map pagePostings ([fullPage] ++ [shortPage])), tr)
         /\ requests tr = pageRequests 2
         /\ forall i jobItems,
              nth_error [fullPage] i = Some jobItems ->
              pagePostings jobItems = [] ->
              In (HttpGet (pageURL (pageAt (S i)))) (requests tr))
  /\ forall page allJobs tr0 fuel',
       http_Get exampleWorld (length (requests tr0)) (pageURL page)
       = served shortPage ->
       fst (loop (S fuel') exampleWorld page allJobs tr0)
       = Returned (allJobs ++ pagePostings shortPage).
Proof.
  assert (H1 : servesFull exampleWorld [fullPage])
    by (apply servesFull_one; [reflexivity | simpl; lia]).
  assert (H2 : serves exampleWorld 1 shortPage) by reflexivity.
  assert (H3 : length shortPage < 10) by (simpl; lia).
  assert (H4 : 1 < 2) by lia.
  split; [exact H1|]. split; [exact H2|]. split; [exact H3|].
  split; [exact H4|].
  exact (pagination_stops_below_ten exampleWorld [fullPage] shortPage 2
           H1 H2 H3 H4).
Defined.

(** C3.  A page without items ends the pagination, and the run goes on as
    after any last page: the loop returns the list as it was, with nothing
    taken from that page, [main] prints its report and the mail is sent, so
    the process ends with status 0.  This holds after any number of full
    pages, and from any state of the loop. *)
Theorem pagination_stops_on_empty_page w full fuel :
  servesFull w full ->
  serves w (length full) [] ->
  length full < fuel ->
  loop fuel w 1 [] []
  = (Returned (flat_map pagePostings full),
     fetchesFrom 0 (S (length full)) ++ [emptyPageNote])
  /\ run fuel w
     = (Returned tt,
        (fetchesFrom 0 (S (length full)) ++ [emptyPageNote])
        ++ report (flat_map pagePostings full)
        ++ [mailEvent w (flat_map pagePostings full)])
  /\ forall page allJobs tr fuel',
       http_Get w (length (requests tr)) (pageURL page) = served [] ->
       loop (S fuel') w page allJobs tr
       = (Returned allJobs, tr ++ fetchEvents page ++ [emptyPageNote]).
Proof.
  intros Hfull Hempty Hfuel.
  assert (Hloop : loop fuel w 1 [] []
                  = (Returned (flat_map pagePostings full),
                     fetchesFrom 0 (S (length full)) ++ [emptyPageNote])).
  { rewrite (loop_short w full [] fuel Hfull Hempty) by (simpl; lia).
    rewrite flat_map_app. simpl. now rewrite app_nil_r. }
  split; [exact Hloop|]. split.
  - unfold run. now apply main_returned.
  - intros page jobs tr fuel' H. apply loop_break.
    now apply iteration_empty.
Qed.

Lemma pagination_stops_on_empty_page_witness :
  servesFull endingWorld [fullPage]
  /\ serves endingWorld 1 []
  /\ 1 < 2
  /\ loop 2 endingWorld 1 [] []
     = (Returned (flat_map pagePostings [fullPage]),
        fetchesFrom 0 2 ++ [emptyPageNote])
  /\ run 2 endingWorld
     = (Returned tt,
        (fetchesFrom 0 2 ++ [emptyPageNote])
        ++ report (flat_map pagePostings [fullPage])
        ++ [mailEvent endingWorld (flat_map pagePostings [fullPage])])
  /\ forall page allJobs tr fuel',
       http_Get endingWorld (length (requests tr)) (pageURL page)
       = served [] ->
       loop (S fuel') endingWorld page allJobs tr
       = (Returned allJobs, tr ++ fetchEvents page ++ [emptyPageNote]).
Proof.
  assert (H1 : servesFull endingWorld [fullPage])
    by (apply servesFull_one; [reflexivity | simpl; lia]).
  assert (H2 : serves endingWorld 1 []) by reflexivity.
  assert (H3 : 1 < 2) by lia.
  split; [exact H1|]. split; [exact H2|]. split; [exact H3|].
  exact (pagination_stops_on_empty_page endingWorld [fullPage] 2 H1 H2 H3).
Defined.

(** C8.  A fatal collection error (the request fails, the status is not
    200, or the HTML does not parse) on a page reached after full pages
    ends the process with status 1 at once: the failing request is the last
    one, every page was requested once, and no mail is sent, whatever
    postings the earlier pages gave. *)
Theorem fatal_error_halts w full fuel :
  servesFull w full ->
  fatalAt w (length full) ->
  length full < fuel ->
  exists tr,
    run fuel w = (Exited 1, tr)
    /\ requests tr = pageRequests (S (length full))
    /\ mails tr = [].
Proof.
  intros Hfull Hfatal Hfuel.
  destruct (iteration_fatal w (pageAt (length full))
              (flat_map pagePostings full) (fetchesFrom 0 (length full)))
    as [text Hit].
  { rewrite length_requests_fetchesFrom. exact Hfatal. }
  exists (fetchesFrom 0 (S (length full)) ++ [LogFatal text]).
  split; [|split].
  - unfold run. apply main_exited.
    replace fuel with (length full + S (fuel - length full - 1)) by lia.
    rewrite (loop_full w full Hfull), fetchesFrom_S, <- app_assoc.
    apply loop_exit. exact Hit.
  - rewrite requests_app, pageRequests_fetches. simpl. now rewrite app_nil_r.
  - rewrite mails_app, mails_fetchesFrom. reflexivity.
Qed.

Lemma fatal_error_halts_witness :
  servesFull failingWorld [fullPage]
  /\ fatalAt failingWorld 1
  /\ 1 < 2
  /\ exists tr,
       run 2 failingWorld = (Exited 1, tr)
       /\ requests tr = pageRequests 2
       /\ mails tr = [].
Proof.
  assert (H1 : servesFull failingWorld [fullPage])
    by (apply servesFull_one; [reflexivity | simpl; lia]).
  assert (H2 : fatalAt failingWorld 1) by (left; discriminate).
  assert (H3 : 1 < 2) by lia.
  split; [exact H1|]. split; [exact H2|]. split; [exact H3|].
  exact (fatal_error_halts failingWorld [fullPage] 2 H1 H2 H3).
Defined.

(** ** The delivery *)

Lemma iteration_withRelay w relay page allJobs tr :
  iteration (withRelay w relay) page allJobs tr = iteration w page allJobs tr.
Proof. reflexivity. Qed.

Lemma loop_withRelay w relay fuel :
  forall page allJobs tr,
    loop fuel (withRelay w relay) page allJobs tr = loop fuel w page allJobs tr.
Proof.
  induction fuel as [|fuel IH]; intros page allJobs tr; simpl; [reflexivity|].
  unfold bind. rewrite iteration_withRelay.
  destruct (iteration w page allJobs tr) as [[[[|] jobs]| |] tr'];
    auto.
Qed.


(** C9.  When the relay answers the delivery attempt with an error,
    [sendDailyJobEmail] returns that error after this one attempt, and
    [main] drops it: with any other relay in its place, one that accepts
    the message or one that fails, the run gives the same events (the same
    output) and the same exit. *)
Theorem delivery_error_returned_and_dropped w jobPostings tr err :
  relayAnswer w jobPostings = Some err ->
  sendDailyJobEmail w jobPostings tr
  = (Returned (Some err), tr ++ [mailEvent w jobPostings])
  /\ forall fuel relay, run fuel (withRelay w relay) = run fuel w.
Proof.
  intros H. split.
  - rewrite sendDailyJobEmail_run. now rewrite H.
  - intros fuel relay. unfold run, main, bind.
    rewrite loop_withRelay.
    destruct (loop fuel w 1 [] []) as [[allJobs|code|] tr']; auto.
    unfold Printf at 1 3, emit. rewrite !forEach_Print.
    rewrite !sendDailyJobEmail_run. reflexivity.
Qed.

Lemma delivery_error_returned_and_dropped_witness :
  relayAnswer exampleWorld twoJobs = Some (lit "535 Authentication failed")
  /\ sendDailyJobEmail exampleWorld twoJobs []
     = (Returned (Some (lit "535 Authentication failed")),
        [] ++ [mailEvent exampleWorld twoJobs])
  /\ forall fuel relay,
       run fuel (withRelay exampleWorld relay) = run fuel exampleWorld.
Proof.
  assert (H : relayAnswer exampleWorld twoJobs
              = Some (lit "535 Authentication failed")) by reflexivity.
  split; [exact H|].
  exact (delivery_error_returned_and_dropped exampleWorld twoJobs [] _ H).
Defined.

Lemma attempts_mailEvent w : attempts w = [mailEvent w []].
Proof.
  unfold attempts. rewrite sendDailyJobEmail_run. reflexivity.
Qed.

(** C7, as stated, fails: the address of the relay is the same in every
    world, and it is not the value of any variable of the environment; in
    the world where every variable is empty the attempt still goes to
    smtp.gmail.com:587. *)
Lemma delivery_parameters_counterexample :
  hardcoded relayOf /\ ~ suppliedExternally relayOf.
Proof.
  split.
  - exists (lit "smtp.gmail.com:587"). intros w e.
    rewrite attempts_mailEvent. intros [<-|[]]. reflexivity.
  - intros [key H].
    specialize (H blankWorld (mailEvent blankWorld [])).
    rewrite attempts_mailEvent in H. specialize (H (or_introl eq_refl)).
    discriminate H.
Qed.

(** C7, amended.  The sender, the recipient and the credential of the
    delivery attempt are the values of the variables FROM_EMAIL, TO_EMAIL
    and GOOGLE_APP_PASSWORD of the environment; the relay is the fixed
    address smtp.gmail.com:587. *)
Theorem delivery_parameters w jobPostings tr :
  exists e,
    snd (sendDailyJobEmail w jobPostings tr) = tr ++ [e]
    /\ senderOf e = os_Getenv w (lit "FROM_EMAIL")
    /\ recipientsOf e = [os_Getenv w (lit "TO_EMAIL")]
    /\ credentialOf e = os_Getenv w (lit "GOOGLE_APP_PASSWORD")
    /\ relayOf e = lit "smtp.gmail.com:587".
Proof.
  exists (mailEvent w jobPostings). rewrite sendDailyJobEmail_run.
  repeat split.
Qed.

(** ** The accumulated list *)

Lemma In_pagePostings job jobItems :
  In job (pagePostings jobItems) -> accepted job.
Proof.
  unfold pagePostings. rewrite filter_In, in_map_iff.
  intros [(s & <- & _) Hf]. split.
  - now apply titleFilter_wanted.
  - apply TrimSpace_trimmed.
Qed.

Lemma iteration_appends w page allJobs tr c allJobs' tr' :
  iteration w page allJobs tr = (Returned (c, allJobs'), tr') ->
  exists jobItems, allJobs' = allJobs ++ pagePostings jobItems.
Proof.
  unfold iteration, bind, Printf, emit, Get, Fatalf, ret.
  destruct (http_Get w _ _) as [err|resp]; [discriminate|].
  destruct (negb (StatusCode resp =? 200)%Z); [discriminate|].
  destruct (Body resp) as [err|jobItems]; [discriminate|].
  destruct (Z.of_nat (length jobItems) =? 0)%Z.
  - intros H. injection H as _ <- _. exists []. now rewrite app_nil_r.
  - rewrite Each_callback.
    destruct (Z.of_nat (length jobItems) <? 10)%Z; intros H;
      injection H as _ <- _; now exists jobItems.
Qed.

(** Whatever the site serves, the list that the loop returns extends the
    list it started from by accepted postings. *)
Lemma loop_result_accepted w fuel :
  forall page allJobs tr allJobs' tr',
    loop fuel w page allJobs tr = (Returned allJobs', tr') ->
    exists more, allJobs' = allJobs ++ more /\ Forall accepted more.
Proof.
  induction fuel as [|fuel IH]; intros page allJobs tr allJobs' tr' H;
    simpl in H; [discriminate|].
  unfold bind in H.
  destruct (iteration w page allJobs tr) as [[[c jobs]|code|] tr1] eqn:E;
    try discriminate.
  apply iteration_appends in E as [jobItems ->].
  assert (Hacc : Forall accepted (pagePostings jobItems)).
  { apply Forall_forall. intros job. apply In_pagePostings. }
  destruct c.
  - apply IH in H as (more & -> & Hmore).
    exists (pagePostings jobItems ++ more). rewrite <- app_assoc.
    split; [reflexivity|]. now apply Forall_app.
  - unfold ret in H. injection H as <- _. eauto.
Qed.

Lemma serves_pageItems w n jobItems :
  serves w n jobItems -> pageItems w n = jobItems.
Proof. unfold serves, pageItems. now intros ->. Qed.

Lemma firstn_S_nth_error {A} (l : list A) k x :
  nth_error l k = Some x -> firstn (S k) l = firstn k l ++ [x].
Proof.
  revert k. induction l as [|a l IH]; intros [|k] H; simpl in *;
    try discriminate.
  - now injection H as ->.
  - now rewrite (IH k H).
Qed.

Lemma reached_value w n jobItems k allJobs :
  reached w n jobItems k allJobs ->
  serves w n jobItems /\ k <= length jobItems
  /\ allJobs
     = flat_map (fun i => pagePostings (pageItems w i)) (seq 0 n)
       ++ pagePostings (firstn k jobItems).
Proof.
  induction 1 as [jobItems Hs
                 | n jobItems k allJobs s _ (Hs & Hk & IH) Hnth
                 | n jobItems allJobs jobItems' _ (Hs & Hk & IH) Hlen Hs'].
  - repeat split; auto. lia.
  - split; [exact Hs|]. split.
    + apply Nat.le_succ_l. apply nth_error_Some. congruence.
    + rewrite (firstn_S_nth_error _ _ _ Hnth), pagePostings_app.
      rewrite callback_postingOf, IH, <- app_assoc. reflexivity.
  - split; [exact Hs'|]. split; [lia|].
    rewrite seq_S, flat_map_app. simpl. rewrite !app_nil_r.
    rewrite (serves_pageItems _ _ _ Hs). rewrite firstn_all in IH. exact IH.
Qed.

(** The points of [reached] are the points of the loop of [main]. *)
Lemma reached_loop w n jobItems k allJobs :
  reached w n jobItems k allJobs ->
  exists atHead,
    (forall fuel,
        loop (n + fuel) w 1 [] []
        = loop fuel w (pageAt n) atHead (fetchesFrom 0 n))
    /\ serves w n jobItems
    /\ allJobs = Each (firstn k jobItems) callback atHead.
Proof.
  induction 1 as [jobItems Hs
                 | n jobItems k allJobs s _ (atHead & Hl & Hs & IH) Hnth
                 | n jobItems allJobs jobItems' _ (atHead & Hl & Hs & IH)
                     Hlen Hs'].
  - exists []. repeat split; auto.
  - exists atHead. repeat split; auto.
    rewrite (firstn_S_nth_error _ _ _ Hnth). unfold Each in *.
    rewrite fold_left_app. simpl. now rewrite IH.
  - exists allJobs. repeat split; auto.
    intros fuel. replace (S n + fuel) with (n + S fuel) by lia.
    rewrite Hl. simpl loop. unfold bind.
    rewrite (iteration_full _ _ _ _ jobItems);
      [| rewrite length_requests_fetchesFrom; exact Hs | exact Hlen].
    rewrite fetchesFrom_S. simpl Nat.add.
    rewrite firstn_all, Each_callback in IH. now rewrite IH.
Qed.

(** C10.  At every point of the pagination loop, every posting of the
    accumulated list passes the title filter and has a title without white
    space at either end; the list is the postings of the earlier pages, in
    the order of the pages, followed by those of the items processed so far
    of the current page, and the next step only appends to it. *)
Theorem allJobs_invariant w n jobItems k allJobs :
  reached w n jobItems k allJobs ->
  Forall accepted allJobs
  /\ allJobs
     = flat_map (fun i => pagePostings (pageItems w i)) (seq 0 n)
       ++ pagePostings (firstn k jobItems)
  /\ forall s, exists more, callback allJobs s = allJobs ++ more.
Proof.
  intros H. apply reached_value in H as (_ & _ & E). split; [|split].
  - rewrite E. apply Forall_forall. intros job Hin.
    apply in_app_or in Hin as [Hin|Hin].
    + apply in_flat_map in Hin as (i & _ & Hin).
      now apply In_pagePostings in Hin.
    + now apply In_pagePostings in Hin.
  - exact E.
  - intros s. rewrite callback_postingOf. eauto.
Qed.

Lemma allJobs_invariant_witness :
  reached exampleWorld 1 shortPage 1
          (callback (Each fullPage callback []) (listed "Software Engineer, Trust" "/positions/11"))
  /\ Forall accepted
            (callback (Each fullPage callback [])
                      (listed "Software Engineer, Trust" "/positions/11"))
  /\ callback (Each fullPage callback [])
              (listed "Software Engineer, Trust" "/positions/11")
     = flat_map (fun i => pagePostings (pageItems exampleWorld i)) (seq 0 1)
       ++ pagePostings (firstn 1 shortPage)
  /\ forall s, exists more,
       callback (callback (Each fullPage callback [])
                          (listed "Software Engineer, Trust" "/positions/11")) s
       = callback (Each fullPage callback [])
                  (listed "Software Engineer, Trust" "/positions/11") ++ more.
Proof.
  assert (H0 : reached exampleWorld 0 fullPage 0 [])
    by (apply reached_start; reflexivity).
  assert (H1 : reached exampleWorld 0 fullPage (length fullPage)
                       (Each fullPage callback [])).
  { repeat (eapply reached_item; [|reflexivity]). exact H0. }
  assert (H2 : reached exampleWorld 1 shortPage 0 (Each fullPage callback [])).
  { eapply reached_turn; [exact H1 | simpl; lia | reflexivity]. }
  assert (H : reached exampleWorld 1 shortPage 1
                (callback (Each fullPage callback [])
                   (listed "Software Engineer, Trust" "/positions/11"))).
  { eapply reached_item; [exact H2 | reflexivity]. }
  split; [exact H|].
  exact (allJobs_invariant exampleWorld 1 shortPage 1 _ H).
Defined.

(** ** The lines of the body *)

Lemma noLF_iff s : noLF s <-> forallb (fun c => negb (Ascii.eqb c LF)) s = true.
Proof.
  unfold noLF. rewrite forallb_forall. split.
  - intros H c Hc. apply negb_true_iff, Ascii.eqb_neq. intros ->. auto.
  - intros H Hin. apply H in Hin. rewrite Ascii.eqb_refl in Hin. discriminate.
Qed.

Lemma noLF_app a b : noLF a -> noLF b -> noLF (a ++ b).
Proof. unfold noLF. intros Ha Hb H. apply in_app_or in H. tauto. Qed.

Lemma Split_noLF a : noLF a -> strings.Split a LF = [a].
Proof.
  induction a as [|c a IH]; intros H; simpl; [reflexivity|].
  destruct (Ascii.eqb c LF) eqn:E.
  - apply Ascii.eqb_eq in E. subst. exfalso. apply H. now left.
  - rewrite IH; [reflexivity|]. intros Hin. apply H. now right.
Qed.

Lemma Split_app a b :
  noLF a -> strings.Split (a ++ LF :: b) LF = a :: strings.Split b LF.
Proof.
  induction a as [|c a IH]; intros H; simpl.
  - reflexivity.
  - destruct (Ascii.eqb c LF) eqn:E.
    + apply Ascii.eqb_eq in E. subst. exfalso. apply H. now left.
    + rewrite IH; [reflexivity|]. intros Hin. apply H. now right.
Qed.

Lemma fold_WriteString jobPostings body :
  fold_left (fun body job => WriteString body (jobEntry job)) jobPostings body
  = body ++ concat (map jobEntry jobPostings).
Proof.
  revert body. induction jobPostings as [|job jobs IH]; intros body; simpl.
  - now rewrite app_nil_r.
  - rewrite IH. unfold WriteString. now rewrite <- app_assoc.
Qed.

Lemma emailBody_entries jobPostings :
  jobPostings <> [] ->
  emailBody jobPostings
  = greeting ++ concat (map jobEntry jobPostings) ++ closing.
Proof.
  intros H. unfold emailBody. destruct jobPostings as [|job jobs];
    [congruence|].
  change (Z.of_nat (length (job :: jobs)) =? 0)%Z with false. cbv iota.
  rewrite fold_WriteString. unfold WriteString, greeting, closing.
  cbn [lit list_ascii_of_string app]. rewrite <- !app_assoc. reflexivity.
Qed.

Lemma lines_entries jobPostings rest :
  Forall (fun job => noLF (Title job) /\ noLF (URL job)) jobPostings ->
  lines (concat (map jobEntry jobPostings) ++ rest)
  = map postingLine jobPostings ++ lines rest.
Proof.
  unfold lines. induction 1 as [|job jobs [Ht Hu] _ IH]; cbn [map concat app].
  - reflexivity.
  - replace ((jobEntry job ++ concat (map jobEntry jobs)) ++ rest)
      with (postingLine job ++ LF :: (concat (map jobEntry jobs) ++ rest)).
    + rewrite Split_app, IH; [reflexivity|].
      unfold postingLine. repeat apply noLF_app; auto;
        apply noLF_iff; reflexivity.
    + unfold jobEntry, postingLine. rewrite <- !app_assoc. reflexivity.
Qed.

Lemma lines_emailBody jobPostings :
  jobPostings <> [] ->
  Forall (fun job => noLF (Title job) /\ noLF (URL job)) jobPostings ->
  lines (emailBody jobPostings)
  = greetingLines ++ map postingLine jobPostings ++ closingLines.
Proof.
  intros Hne H. rewrite emailBody_entries by assumption.
  assert (E : forall text,
             greeting ++ text
             = lit "Hello," ++ LF :: [] ++ LF
               :: lit "Here are today's midlevel Software Engineer job postings:"
               ++ LF :: [] ++ LF :: text) by reflexivity.
  rewrite E. unfold lines.
  rewrite !Split_app by (apply noLF_iff; reflexivity).
  change (strings.Split (concat (map jobEntry jobPostings) ++ closing) LF)
    with (lines (concat (map jobEntry jobPostings) ++ closing)).
  rewrite lines_entries by assumption.
  reflexivity.
Qed.

Lemma isPostingLine_postingLine job : isPostingLine (postingLine job) = true.
Proof.
  unfold isPostingLine, postingLine. apply andb_true_iff. split.
  - reflexivity.
  - apply Contains_iff. exists (Title job), (URL job). reflexivity.
Qed.

Lemma filter_all {A} (f : A -> bool) l :
  (forall x, In x l -> f x = true) -> filter f l = l.
Proof.
  induction l as [|a l IH]; intros H; simpl; [reflexivity|].
  rewrite (H a (or_introl eq_refl)), IH; [reflexivity|].
  intros x Hx. apply H. now right.
Qed.

(** C4, amended.  For every list of one or more postings whose titles and
    URLs have no line feed in them, the lines of the body are those of the
    greeting, then one line [- <title>: <url>] for each posting, in the
    order of the list, then those of the closing; so the lines of that form
    are exactly the lines of the postings. *)
Theorem body_lists_postings jobPostings :
  jobPostings <> [] ->
  Forall (fun job => noLF (Title job) /\ noLF (URL job)) jobPostings ->
  lines (emailBody jobPostings)
  = greetingLines ++ map postingLine jobPostings ++ closingLines
  /\ listsPostings jobPostings.
Proof.
  intros Hne H. pose proof (lines_emailBody jobPostings Hne H) as E.
  split; [exact E|]. unfold listsPostings. rewrite E, !filter_app.
  change (filter isPostingLine greetingLines) with (@nil gostring).
  change (filter isPostingLine closingLines) with (@nil gostring).
  rewrite app_nil_r. simpl. apply filter_all.
  intros line Hin. apply in_map_iff in Hin as (job & <- & _).
  apply isPostingLine_postingLine.
Qed.

Lemma body_lists_postings_witness :
  twoJobs <> []
  /\ Forall (fun job => noLF (Title job) /\ noLF (URL job)) twoJobs
  /\ lines (emailBody twoJobs)
     = greetingLines ++ map postingLine twoJobs ++ closingLines
  /\ listsPostings twoJobs.
Proof.
  assert (H1 : twoJobs <> []) by discriminate.
  assert (H2 : Forall (fun job => noLF (Title job) /\ noLF (URL job)) twoJobs).
  { repeat constructor; apply noLF_iff; reflexivity. }
  split; [exact H1|]. split; [exact H2|].
  exact (body_lists_postings twoJobs H1 H2).
Defined.

(** C4, as stated, fails: a posting that the collector accepts can have a
    line feed in its title, and then the body has a line of the form
    [- <title>: <url>] that is not the line of a posting. *)
Lemma body_lists_postings_counterexample :
  titleFilter (Title twoLineJob) = true
  /\ strings.TrimSpace (Title twoLineJob) = Title twoLineJob
  /\ ~ listsPostings [twoLineJob].
Proof.
  split; [reflexivity|]. split; [reflexivity|].
  unfold listsPostings. vm_compute. discriminate.
Qed.

(** C5.  For the empty list of postings the body contains the notice
    "No current job postings found today." and none of its lines has the
    form [- <title>: <url>]. *)
Theorem empty_list_body :
  Substring (lit "No current job postings found today.") (emailBody [])
  /\ lines (emailBody []) = emptyLines ++ closingLines
  /\ filter isPostingLine (lines (emailBody [])) = [].
Proof.
  split; [|split].
  - apply Contains_iff. reflexivity.
  - reflexivity.
  - reflexivity.
Qed.

(** ** The reader of mail messages *)

Lemma untilLF_app a b :
  noLF a -> mail.untilLF (a ++ LF :: b) = Some (a, b).
Proof.
  induction a as [|c a IH]; intros H; simpl.
  - reflexivity.
  - destruct (Ascii.eqb c LF) eqn:E.
    + apply Ascii.eqb_eq in E. subst. exfalso. apply H. now left.
    + rewrite IH; [reflexivity|]. intros Hin. apply H. now right.
Qed.

Lemma dropCR_app a : mail.dropCR (a ++ [CR]) = a.
Proof.
  unfold mail.dropCR. rewrite rev_app_distr. simpl.
  apply rev_involutive.
Qed.

Lemma readLine_CRLF a b :
  noLF a -> mail.readLine (a ++ [CR; LF] ++ b) = Some (a, b).
Proof.
  intros H. unfold mail.readLine.
  change (a ++ [CR; LF] ++ b) with (a ++ [CR] ++ LF :: b).
  rewrite app_assoc, untilLF_app.
  - now rewrite dropCR_app.
  - apply noLF_app; [exact H|]. apply noLF_iff. reflexivity.
Qed.

Lemma trimLeft_id_iff s : mail.trimLeft s = s <-> startsNonBlank s.
Proof.
  destruct s as [|c s]; simpl; [tauto|].
  destruct (mail.isBlank c) eqn:E; [|tauto].
  split; [|discriminate]. intros H.
  assert (L : forall t, length (mail.trimLeft t) <= length t).
  { induction t as [|d t IH]; simpl; [lia|].
    destruct (mail.isBlank d); simpl; lia. }
  specialize (L s). rewrite H in L. simpl in L. lia.
Qed.

Lemma trimLeft_app s t :
  s <> [] -> mail.trimLeft s = s -> mail.trimLeft (s ++ t) = s ++ t.
Proof.
  intros Hs H. apply trimLeft_id_iff in H. apply trimLeft_id_iff.
  destruct s; [congruence|exact H].
Qed.

Lemma valid_field_not_blank c :
  mail.validHeaderFieldByte c = true -> mail.isBlank c = false.
Proof.
  destruct c as [[] [] [] [] [] [] [] []]; vm_compute; congruence.
Qed.

Lemma valid_field_not_colon c :
  mail.validHeaderFieldByte c = true -> Ascii.eqb c ":"%char = false.
Proof.
  destruct c as [[] [] [] [] [] [] [] []]; vm_compute; congruence.
Qed.

Lemma valid_field_not_LF c : mail.validHeaderFieldByte c = true -> c <> LF.
Proof.
  destruct c as [[] [] [] [] [] [] [] []]; vm_compute; congruence.
Qed.

Lemma valid_value_not_LF c : mail.validHeaderValueByte c = true -> c <> LF.
Proof.
  destruct c as [[] [] [] [] [] [] [] []]; vm_compute; congruence.
Qed.

Lemma forallb_noLF (valid : ascii -> bool) s :
  (forall c, valid c = true -> c <> LF) -> forallb valid s = true -> noLF s.
Proof.
  intros Hv H Hin. rewrite forallb_forall in H. apply H in Hin.
  now apply Hv in Hin.
Qed.

Lemma cutColon_key key v :
  forallb mail.validHeaderFieldByte key = true ->
  mail.cutColon (key ++ ":"%char :: v) = Some (key, v).
Proof.
  induction key as [|c key IH]; simpl; [reflexivity|].
  intros H. apply andb_true_iff in H as [Hc H].
  rewrite (valid_field_not_colon c Hc), (IH H). reflexivity.
Qed.

(** The line of a header field, as [readContinuedLine] returns it, gives the
    key and the value back. *)
Lemma trim_field key v :
  key <> [] ->
  forallb mail.validHeaderFieldByte key = true ->
  mail.headerSafe v ->
  exists v',
    mail.trim (key ++ lit ": " ++ v) = key ++ ":"%char :: v'
    /\ mail.trimLeft v' = v
    /\ forallb mail.validHeaderValueByte v' = true.
Proof.
  intros Hkey Hvalid (Hv & Hl & Hr). unfold mail.trim.
  assert (Hk : mail.trimLeft key = key).
  { apply trimLeft_id_iff. destruct key as [|c key]; [congruence|].
    simpl in *. apply andb_true_iff in Hvalid as [Hc _].
    now apply valid_field_not_blank. }
  rewrite (trimLeft_app key _ Hkey Hk).
  destruct v as [|c v].
  - exists []. rewrite rev_app_distr. simpl.
    rewrite rev_involutive. repeat split.
  - exists (SP :: c :: v). rewrite !rev_app_distr.
    rewrite <- app_assoc.
    rewrite (trimLeft_app (rev (c :: v))); [| |exact Hr].
    + rewrite app_assoc, <- !rev_app_distr, rev_involutive.
      split; [reflexivity|]. split.
      * simpl mail.trimLeft at 1. exact Hl.
      * simpl. simpl in Hv. exact Hv.
    + simpl. intros E. apply app_eq_nil in E as [_ E]. discriminate.
Qed.

Lemma readHeader_field fuel key v rest acc :
  key <> [] ->
  forallb mail.validHeaderFieldByte key = true ->
  mail.headerSafe v ->
  startsNonBlank rest ->
  mail.readHeader (S fuel) (key ++ lit ": " ++ v ++ [CR; LF] ++ rest) acc
  = mail.readHeader fuel rest ((mail.canonical true key, v) :: acc).
Proof.
  intros Hkey Hvalid Hsafe Hrest.
  destruct (trim_field key v Hkey Hvalid Hsafe) as (v' & Ht & Hv' & Hvalid').
  assert (Hline : noLF (key ++ lit ": " ++ v)).
  { repeat apply noLF_app.
    - eapply forallb_noLF; [exact valid_field_not_LF | exact Hvalid].
    - apply noLF_iff. reflexivity.
    - eapply forallb_noLF; [exact valid_value_not_LF | apply Hsafe]. }
  cbn [mail.readHeader]. unfold mail.readContinuedLine.
  replace (key ++ lit ": " ++ v ++ [CR; LF] ++ rest)
    with ((key ++ lit ": " ++ v) ++ [CR; LF] ++ rest)
    by (now rewrite <- !app_assoc).
  rewrite (readLine_CRLF _ rest Hline).
  destruct (key ++ lit ": " ++ v) as [|c line] eqn:El.
  { apply app_eq_nil in El as [El _]. congruence. }
  rewrite Ht.
  assert (Hc : mail.continued (S (length rest)) (key ++ ":"%char :: v') rest
               = Some (key ++ ":"%char :: v', rest)).
  { simpl. destruct rest as [|d rest]; [reflexivity|].
    simpl in Hrest. now rewrite Hrest. }
  rewrite Hc.
  destruct (key ++ ":"%char :: v') as [|c' kv] eqn:Ekv.
  { apply app_eq_nil in Ekv as [_ Ekv]. discriminate. }
  rewrite <- Ekv, (cutColon_key key v' Hvalid), Hvalid, Hvalid', Hv'.
  simpl. destruct key; [congruence|reflexivity].
Qed.

Lemma readHeader_end fuel body acc :
  mail.readHeader (S fuel) ([CR; LF] ++ body) acc = Some (rev acc, body).
Proof. reflexivity. Qed.

Lemma headerSafe_subject : mail.headerSafe subject.
Proof. repeat split. Qed.

(** C6, amended.  For every sender and recipient made of tabs and of bytes
    that are not control characters, with no space or tab at either end, and
    for every list of postings, the reader gives back the composed message:
    its [From], [To] and [Subject] values and its body are those that were
    composed. *)
Theorem message_reads_back from to jobPostings :
  mail.headerSafe from -> mail.headerSafe to ->
  readsBack from to jobPostings.
Proof.
  intros Hfrom Hto. unfold readsBack.
  exists [(lit "From", from); (lit "To", to); (lit "Subject", subject)],
    (emailBody jobPostings).
  split; [|repeat split].
  unfold emailMessage.
  set (body := emailBody jobPostings).
  assert (Hlen : exists n,
             length (lit "From: " ++ from ++ [CR; LF] ++ lit "To: " ++ to
                     ++ [CR; LF] ++ lit "Subject: " ++ subject ++ [CR; LF]
                     ++ [CR; LF] ++ body) = S (S (S (S n)))).
  { simpl. eauto. }
  destruct Hlen as [n Hlen].
  unfold mail.ReadMessage.
  change (lit "From: " ++ from ++ [CR; LF] ++ lit "To: " ++ to ++ [CR; LF]
          ++ lit "Subject: " ++ subject ++ [CR; LF] ++ [CR; LF] ++ body)
    with ("F"%char :: lit "rom: " ++ from ++ [CR; LF] ++ lit "To: " ++ to
          ++ [CR; LF] ++ lit "Subject: " ++ subject ++ [CR; LF]
          ++ [CR; LF] ++ body) at 1.
  cbv iota. change (mail.isBlank "F") with false. cbv iota.
  rewrite Hlen.
  change (lit "From: " ++ from ++ [CR; LF] ++ lit "To: " ++ to ++ [CR; LF]
          ++ lit "Subject: " ++ subject ++ [CR; LF] ++ [CR; LF] ++ body)
    with (lit "From" ++ lit ": " ++ from ++ [CR; LF]
          ++ (lit "To" ++ lit ": " ++ to ++ [CR; LF]
              ++ (lit "Subject" ++ lit ": " ++ subject ++ [CR; LF]
                  ++ ([CR; LF] ++ body)))).
  rewrite readHeader_field;
    [| discriminate | reflexivity | exact Hfrom | reflexivity].
  rewrite readHeader_field;
    [| discriminate | reflexivity | exact Hto | reflexivity].
  rewrite readHeader_field;
    [| discriminate | reflexivity | exact headerSafe_subject | reflexivity].
  rewrite readHeader_end. reflexivity.
Qed.

Lemma message_reads_back_witness :
  mail.headerSafe (lit "me@example.org")
  /\ mail.headerSafe (lit "you@example.org")
  /\ readsBack (lit "me@example.org") (lit "you@example.org") twoJobs.
Proof.
  assert (H1 : mail.headerSafe (lit "me@example.org")) by (repeat split).
  assert (H2 : mail.headerSafe (lit "you@example.org")) by (repeat split).
  split; [exact H1|]. split; [exact H2|].
  exact (message_reads_back (lit "me@example.org") (lit "you@example.org")
           twoJobs H1 H2).
Defined.

(** C6, as stated, fails: a sender with a line break in it ends the header
    early, and the reader gives back another [From] value. *)
Lemma message_reads_back_counterexample :
  ~ readsBack twoLineSender (lit "me@example.org") [].
Proof.
  intros (header & body & H & Hfrom & _).
  vm_compute in H. injection H as <- _. vm_compute in Hfrom.
  discriminate Hfrom.
Qed.

(** * Further properties *)

(** ** The runs in any world *)

Lemma page_cases w n : fullAt w n \/ shortAt w n \/ fatalAt w n.
Proof.
  unfold fullAt, shortAt, fatalAt, serves.
  destruct (fetched w n) as [err|[code body]]; [tauto|]. simpl.
  destruct (Z.eq_dec code 200) as [->|Hc]; [|tauto].
  destruct body as [err|jobItems]; [right; right; right; eauto|].
  destruct (Nat.lt_ge_cases (length jobItems) 10); [right|]; eauto.
Qed.

Lemma fetchesFrom_cons n k :
  fetchesFrom n (S k) = fetchEvents (pageAt n) ++ fetchesFrom (S n) k.
Proof. reflexivity. Qed.

Lemma loop_shape w fuel :
  forall n allJobs tr,
    length (requests tr) = n ->
    exists m,
      (forall i, i < m -> fullAt w (n + i))
      /\ (fst (loop fuel w (pageAt n) allJobs tr) = OutOfFuel -> m = fuel)
      /\ (fst (loop fuel w (pageAt n) allJobs tr) <> OutOfFuel -> m < fuel)
      /\ loopOutcome w n allJobs tr m (loop fuel w (pageAt n) allJobs tr).
Proof.
  induction fuel as [|fuel IH]; intros n allJobs tr Hn.
  - exists 0. simpl. repeat split; try lia; try congruence.
    now rewrite app_nil_r.
  - destruct (page_cases w n) as [(jobItems & Hs & Hlen)
                                 |[(jobItems & Hs & Hlen)|Hf]].
    + (* a full page: one more turn *)
      assert (Hit := iteration_full w (pageAt n) allJobs tr jobItems).
      rewrite Hn in Hit. specialize (Hit Hs Hlen).
      assert (Hn' : length (requests (tr ++ fetchEvents (pageAt n))) = S n).
      { rewrite requests_app, length_app, Hn. simpl. lia. }
      destruct (IH (S n) (allJobs ++ pagePostings jobItems)
                  (tr ++ fetchEvents (pageAt n)) Hn')
        as (m & Hfull & Hout & Hend & Hshape).
      assert (Hloop :
                loop (S fuel) w (pageAt n) allJobs tr
                = loop fuel w (pageAt (S n)) (allJobs ++ pagePostings jobItems)
                       (tr ++ fetchEvents (pageAt n))).
      { simpl loop. unfold bind. now rewrite Hit. }
      rewrite Hloop. exists (S m). split; [|split; [|split]].
      * intros [|i] Hi.
        -- rewrite Nat.add_0_r. exists jobItems. auto.
        -- replace (n + S i) with (S n + i) by lia. apply Hfull. lia.
      * intros H. apply Hout in H. lia.
      * intros H. apply Hend in H. lia.
      * unfold loopOutcome in *.
        destruct (loop fuel w (pageAt (S n)) (allJobs ++ pagePostings jobItems)
                       (tr ++ fetchEvents (pageAt n))) as [[jobs'|code|] tr'].
        -- destruct Hshape as (Hshort & (note & Hnote & ->) & ->).
           replace (n + S m) with (S n + m) by lia.
           split; [exact Hshort|]. split.
           ++ exists note. split; [exact Hnote|].
              rewrite (fetchesFrom_cons n (S m)), <- !app_assoc. reflexivity.
           ++ cbn [seq flat_map]. rewrite (serves_pageItems _ _ _ Hs).
              now rewrite <- !app_assoc.
        -- destruct Hshape as (-> & Hfatal & text & ->).
           replace (n + S m) with (S n + m) by lia.
           repeat split; auto. exists text.
           rewrite (fetchesFrom_cons n (S m)), <- !app_assoc. reflexivity.
        -- rewrite Hshape, (fetchesFrom_cons n m), <- !app_assoc.
           reflexivity.
    + (* a short page: the loop returns *)
      exists 0.
      assert (Hloop :
                exists note,
                  (note = emptyPageNote \/ note = lastPageNote)
                  /\ loop (S fuel) w (pageAt n) allJobs tr
                     = (Returned (allJobs ++ pagePostings jobItems),
                        tr ++ fetchEvents (pageAt n) ++ [note])).
      { destruct jobItems as [|s jobItems].
        - exists emptyPageNote. split; [now left|].
          rewrite (loop_break fuel w (pageAt n) allJobs tr allJobs
                     (tr ++ fetchEvents (pageAt n) ++ [emptyPageNote])).
          + simpl. now rewrite app_nil_r.
          + apply iteration_empty. rewrite Hn. exact Hs.
        - exists lastPageNote. split; [now right|].
          apply loop_break. apply iteration_last.
          + rewrite Hn. exact Hs.
          + simpl in *. lia. }
      destruct Hloop as (note & Hnote & ->). cbn [fst].
      split; [intros i Hi; lia|]. split; [discriminate|].
      split; [intros _; lia|]. unfold loopOutcome. rewrite Nat.add_0_r.
      split; [exists jobItems; auto|]. split.
      * exists note. split; [exact Hnote|]. reflexivity.
      * cbn [seq flat_map]. rewrite (serves_pageItems _ _ _ Hs).
        now rewrite app_nil_r.
    + (* a fatal error: the process exits *)
      exists 0.
      destruct (iteration_fatal w (pageAt n) allJobs tr) as [text Hit].
      { rewrite Hn. exact Hf. }
      rewrite (loop_exit fuel w (pageAt n) allJobs tr 1 _ Hit). cbn [fst].
      split; [intros i Hi; lia|]. split; [discriminate|].
      split; [intros _; lia|]. unfold loopOutcome. rewrite Nat.add_0_r.
      split; [reflexivity|]. split; [exact Hf|].
      exists text. reflexivity.
Qed.

Lemma output_only_report allJobs :
  requests (report allJobs) = [] /\ mails (report allJobs) = [].
Proof.
  unfold report, requests, mails. simpl. split;
    induction allJobs as [|job jobs IH]; simpl; auto.
Qed.

Lemma loop_start_shape w fuel :
  exists m,
    (forall i, i < m -> fullAt w i)
    /\ (fst (loop fuel w 1 [] []) = OutOfFuel -> m = fuel)
    /\ (fst (loop fuel w 1 [] []) <> OutOfFuel -> m < fuel)
    /\ loopOutcome w 0 [] [] m (loop fuel w 1 [] []).
Proof. exact (loop_shape w fuel 0 [] [] eq_refl). Qed.

(** X1.  Whatever the site serves, a run has one of three shapes, decided by
    the first page that is not a full page.  If that page has fewer than ten
    items, [main] returns: the events are the requests with their progress
    lines, one closing note, the report, and one delivery attempt, which is
    the last event and carries the postings of all the pages requested.  If
    it is a fatal error, the process exits with status 1 and the log line is
    the last event, with no delivery attempt.  If all the pages within the
    bound are full, the run is still requesting pages. *)
Theorem run_outcome w fuel :
  exists k,
    k <= fuel
    /\ (forall i, i < k -> fullAt w i)
    /\ match run fuel w with
       | (Returned _, tr) =>
           k < fuel /\ shortAt w k
           /\ exists note,
               (note = emptyPageNote \/ note = lastPageNote)
               /\ tr = fetchesFrom 0 (S k) ++ [note]
                       ++ report (flat_map (fun i => pagePostings (pageItems w i))
                                           (seq 0 (S k)))
                       ++ [mailEvent w
                             (flat_map (fun i => pagePostings (pageItems w i))
                                       (seq 0 (S k)))]
       | (Exited code, tr) =>
           k < fuel /\ fatalAt w k /\ code = 1%Z
           /\ exists text, tr = fetchesFrom 0 (S k) ++ [LogFatal text]
       | (OutOfFuel, tr) => k = fuel /\ tr = fetchesFrom 0 k
       end.
Proof.
  destruct (loop_start_shape w fuel) as (m & Hfull & Hout & Hend & Hshape).
  exists m. unfold run. unfold loopOutcome in Hshape.
  destruct (loop fuel w 1 [] []) as [[allJobs|code|] tr] eqn:E;
    cbn [fst] in *.
  - assert (Hm : m < fuel) by (apply Hend; discriminate).
    split; [lia|]. split; [exact Hfull|].
    rewrite (main_returned fuel w [] allJobs tr E).
    destruct Hshape as (Hshort & (note & Hnote & ->) & ->).
    split; [exact Hm|]. split; [exact Hshort|].
    exists note. split; [exact Hnote|].
    rewrite !app_nil_l, <- !app_assoc. reflexivity.
  - assert (Hm : m < fuel) by (apply Hend; discriminate).
    split; [lia|]. split; [exact Hfull|].
    rewrite (main_exited fuel w [] code tr E).
    destruct Hshape as (-> & Hfatal & text & ->).
    repeat split; auto. exists text. reflexivity.
  - rewrite (Hout eq_refl) in *. split; [lia|]. split; [exact Hfull|].
    unfold main, bind. rewrite E. split; [reflexivity|]. exact Hshape.
Qed.

Lemma requests_of_run w fuel :
  exists k,
    k <= fuel
    /\ requests (snd (run fuel w)) = pageRequests k
    /\ (0 < fuel -> 0 < k).
Proof.
  destruct (loop_start_shape w fuel) as (m & _ & Hout & Hend & Hshape).
  unfold run. unfold loopOutcome in Hshape.
  destruct (loop fuel w 1 [] []) as [[allJobs|code|] tr] eqn:E;
    cbn [fst] in *.
  - rewrite (main_returned fuel w [] allJobs tr E). cbn [snd].
    destruct Hshape as (_ & (note & Hnote & ->) & _).
    exists (S m). split; [apply Hend; discriminate|]. split; [|lia].
    rewrite app_nil_l, <- app_assoc, requests_app, pageRequests_fetches.
    assert (Hr : requests ([note] ++ report allJobs ++ [mailEvent w allJobs])
                 = []).
    { rewrite !requests_app, (proj1 (output_only_report allJobs)).
      destruct Hnote as [->| ->]; reflexivity. }
    rewrite Hr. apply app_nil_r.
  - rewrite (main_exited fuel w [] code tr E). cbn [snd].
    destruct Hshape as (_ & _ & text & ->).
    exists (S m). split; [apply Hend; discriminate|]. split; [|lia].
    rewrite app_nil_l, requests_app, pageRequests_fetches.
    apply app_nil_r.
  - unfold main, bind. rewrite E. cbn [snd]. rewrite Hshape.
    exists m. rewrite (Hout eq_refl). split; [lia|]. split; [|auto].
    rewrite app_nil_l. apply pageRequests_fetches.
Qed.

(** X3.  Whatever the site serves, when the loop returns, its list is the
    postings that pass the filter on the pages requested, page after page,
    in the order of the items: nothing else, nothing dropped, no posting
    merged with an equal one. *)
Theorem loop_result_of_pages w fuel allJobs tr :
  loop fuel w 1 [] [] = (Returned allJobs, tr) ->
  allJobs
  = flat_map (fun i => pagePostings (pageItems w i))
             (seq 0 (length (requests tr))).
Proof.
  intros E. destruct (loop_start_shape w fuel) as (m & _ & _ & _ & Hshape).
  rewrite E in Hshape. unfold loopOutcome in Hshape.
  destruct Hshape as (_ & (note & Hnote & ->) & ->).
  rewrite ?app_nil_l. rewrite requests_app, length_app, length_requests_fetchesFrom.
  destruct Hnote as [->| ->]; simpl length; rewrite Nat.add_0_r; reflexivity.
Qed.

Lemma loop_result_of_pages_witness :
  loop 2 exampleWorld 1 [] []
  = (Returned (flat_map pagePostings [fullPage; shortPage]),
     snd (loop 2 exampleWorld 1 [] []))
  /\ flat_map pagePostings [fullPage; shortPage]
     = flat_map (fun i => pagePostings (pageItems exampleWorld i))
                (seq 0 (length (requests (snd (loop 2 exampleWorld 1 [] []))))).
Proof.
  assert (H : loop 2 exampleWorld 1 [] []
              = (Returned (flat_map pagePostings [fullPage; shortPage]),
                 snd (loop 2 exampleWorld 1 [] []))) by reflexivity.
  split; [exact H|].
  exact (loop_result_of_pages exampleWorld 2 _ _ H).
Defined.

Lemma fullAt_not_short w n : fullAt w n -> ~ shortAt w n.
Proof.
  intros (items & Hs & Hl) (items' & Hs' & Hl'). unfold serves in *.
  rewrite Hs in Hs'. injection Hs' as <-. lia.
Qed.

Lemma fullAt_not_fatal w n : fullAt w n -> ~ fatalAt w n.
Proof.
  intros (items & Hs & Hl). unfold fatalAt, serves in *. rewrite Hs. simpl.
  intros [H|[err H]]; [congruence|discriminate].
Qed.

(** X4.  The loop has no bound of its own on the number of pages: when the
    site serves ten items or more for every page, the run never ends; after
    any number of turns it has requested that many pages and sent no
    mail. *)
Theorem endless_site_never_ends w :
  (forall n, fullAt w n) ->
  forall fuel,
    fst (run fuel w) = OutOfFuel
    /\ requests (snd (run fuel w)) = pageRequests fuel
    /\ mails (snd (run fuel w)) = [].
Proof.
  intros Hfull fuel.
  destruct (loop_start_shape w fuel) as (m & _ & Hout & _ & Hshape).
  unfold run, main, bind. unfold loopOutcome in Hshape.
  destruct (loop fuel w 1 [] []) as [[allJobs|code|] tr] eqn:E.
  - destruct Hshape as (Hshort & _). exfalso.
    exact (fullAt_not_short w _ (Hfull _) Hshort).
  - destruct Hshape as (_ & Hfatal & _). exfalso.
    exact (fullAt_not_fatal w _ (Hfull _) Hfatal).
  - simpl in *. rewrite Hshape, (Hout eq_refl).
    split; [reflexivity|]. split.
    + apply pageRequests_fetches.
    + apply mails_fetchesFrom.
Qed.

Lemma endless_site_never_ends_witness :
  (forall n, fullAt endlessWorld n)
  /\ forall fuel,
       fst (run fuel endlessWorld) = OutOfFuel
       /\ requests (snd (run fuel endlessWorld)) = pageRequests fuel
       /\ mails (snd (run fuel endlessWorld)) = [].
Proof.
  assert (H : forall n, fullAt endlessWorld n).
  { intros n. exists fullPage. split; [reflexivity | simpl; lia]. }
  split; [exact H|]. exact (endless_site_never_ends endlessWorld H).
Defined.




(** ** Page numbers and URLs *)

Section PageNumbers.

Open Scope Z_scope.

Lemma wrap_int_small z : - 2 ^ 63 <= z < 2 ^ 63 -> wrap_int z = z.
Proof. intros H. unfold wrap_int. rewrite Z.mod_small; lia. Qed.

Lemma wrap_int_succ z : wrap_int (wrap_int z + 1) = wrap_int (z + 1).
Proof.
  unfold wrap_int.
  replace ((z + 2 ^ 63) mod 2 ^ 64 - 2 ^ 63 + 1 + 2 ^ 63)
    with ((z + 2 ^ 63) mod 2 ^ 64 + 1) by lia.
  rewrite Z.add_mod_idemp_l by lia. f_equal. f_equal. lia.
Qed.

Lemma pageAt_wrap n : pageAt n = wrap_int (Z.of_nat n + 1).
Proof.
  induction n as [|n IH].
  - reflexivity.
  - cbn [pageAt]. rewrite IH, wrap_int_succ. f_equal. lia.
Qed.

(** X6.  The page requested in the turn that follows [n] turns is [n + 1] as
    long as that is below 2^63; [page++] on Go's [int] then wraps to
    -2^63. *)
Theorem page_numbers n :
  pageAt n = wrap_int (Z.of_nat n + 1)
  /\ (Z.of_nat n + 1 < 2 ^ 63 -> pageAt n = Z.of_nat n + 1)
  /\ (Z.of_nat n + 1 = 2 ^ 63 -> pageAt n = - 2 ^ 63).
Proof.
  split; [apply pageAt_wrap|]. rewrite pageAt_wrap. split; intros H.
  - apply wrap_int_small. lia.
  - rewrite H. reflexivity.
Qed.


Lemma atoi_itoa z : atoi (fmt.itoa z) = Some z.
Proof.
  unfold atoi, fmt.itoa, lit. rewrite string_of_list_ascii_of_string.
  rewrite NilZero.isi.
  - simpl. now rewrite DecimalZ.of_to.
  - destruct z; simpl; try discriminate.
    intros H. injection H as H. now apply Unsigned.to_uint_nonnil in H.
  - destruct z; simpl; try discriminate.
    intros H. injection H as H. now apply Unsigned.to_uint_nonnil in H.
Qed.

Lemma HasPrefix_app prefix rest : strings.HasPrefix (prefix ++ rest) prefix = true.
Proof. apply HasPrefix_iff. now exists rest. Qed.

Lemma pageOfURL_of page : pageOfURL (pageURL page) = Some page.
Proof.
  unfold pageOfURL, pageURL. rewrite HasPrefix_app.
  rewrite skipn_app, skipn_all, Nat.sub_diag. simpl skipn.
  apply atoi_itoa.
Qed.

Lemma pageURL_inj p q : pageURL p = pageURL q -> p = q.
Proof.
  intros H. apply (f_equal pageOfURL) in H.
  rewrite !pageOfURL_of in H. congruence.
Qed.

(** X7.  The URL of a listing page is the base URL followed by the page
    number in decimal: the number can be read back from the URL, so the
    URLs of two pages are equal only if the pages are. *)
Theorem pageOfURL_pageURL page :
  pageOfURL (pageURL page) = Some page
  /\ forall page', pageURL page = pageURL page' -> page = page'.
Proof.
  split; [apply pageOfURL_of|]. intros page'. apply pageURL_inj.
Qed.

Lemma pageAt_small n : Z.of_nat n + 1 < 2 ^ 63 -> pageAt n = Z.of_nat n + 1.
Proof. intros H. rewrite pageAt_wrap. apply wrap_int_small. lia. Qed.

Lemma NoDup_pageRequests k :
  Z.of_nat k < 2 ^ 63 -> NoDup (pageRequests k).
Proof.
  intros Hk. unfold pageRequests.
  apply NoDup_map_NoDup_ForallPairs; [|apply seq_NoDup].
  intros i j Hi Hj H. apply in_seq in Hi, Hj.
  assert (Hu : pageURL (pageAt i) = pageURL (pageAt j)) by congruence.
  apply pageURL_inj in Hu. rewrite !pageAt_small in Hu by lia. lia.
Qed.

End PageNumbers.

(** ** The body and the mail, end to end *)

(** X2.  Whatever the site serves, the requests of a run are those for the
    pages 1, 2, ..., k in this order, for some k within the bound on the
    turns, at least one when a turn is allowed; no URL is requested twice
    (for fewer than 2^63 turns). *)
Theorem run_requests w fuel :
  exists k,
    (k <= fuel)%nat
    /\ requests (snd (run fuel w)) = pageRequests k
    /\ (0 < fuel -> 0 < k)%nat
    /\ ((Z.of_nat fuel < 2 ^ 63)%Z -> NoDup (requests (snd (run fuel w)))).
Proof.
  destruct (requests_of_run w fuel) as (k & Hk & E & Hpos).
  exists k. rewrite E. repeat split; auto.
  intros Hfuel. apply NoDup_pageRequests. lia.
Qed.

Close Scope Z_scope.

Lemma emailBody_opening jobPostings :
  emailBody jobPostings
  = opening jobPostings ++ concat (map jobEntry jobPostings) ++ closing.
Proof.
  destruct jobPostings as [|job jobs].
  - reflexivity.
  - apply emailBody_entries. discriminate.
Qed.

Lemma entry_in_body jobPostings job :
  In job jobPostings -> Substring (jobEntry job) (emailBody jobPostings).
Proof.
  intros Hin. rewrite emailBody_opening.
  apply in_split in Hin as (l1 & l2 & ->).
  exists (opening (l1 ++ job :: l2) ++ concat (map jobEntry l1)),
    (concat (map jobEntry l2) ++ closing).
  rewrite map_app, concat_app. cbn [map concat].
  now rewrite <- !app_assoc.
Qed.

(** X8.  For every list of postings, also with line breaks in titles or
    URLs, the body is the opening (the notice for the empty list, the
    lead-in otherwise), the entries [- <title>: <url>] of the postings in
    the order of the list, each ended by a line feed, and the closing; so
    the entry of every posting of the list occurs in the body. *)
Theorem emailBody_parts jobPostings :
  emailBody jobPostings
  = opening jobPostings ++ concat (map jobEntry jobPostings) ++ closing
  /\ forall job, In job jobPostings ->
                 Substring (jobEntry job) (emailBody jobPostings).
Proof.
  split; [apply emailBody_opening|]. intros job. apply entry_in_body.
Qed.

Lemma Substring_body_message from to subj body :
  forall text, Substring text body ->
               Substring text (emailMessage from to subj body).
Proof.
  intros text (before & after & ->). unfold emailMessage.
  exists (lit "From: " ++ from ++ [CR; LF] ++ lit "To: " ++ to ++ [CR; LF]
          ++ lit "Subject: " ++ subj ++ [CR; LF] ++ [CR; LF] ++ before),
    after.
  now rewrite <- !app_assoc.
Qed.

Lemma In_pagePostings_of s jobItems :
  In s jobItems -> titleFilter (Title (postingOf s)) = true ->
  In (postingOf s) (pagePostings jobItems).
Proof.
  intros Hin Hf. unfold pagePostings. apply filter_In. split; [|exact Hf].
  now apply in_map.
Qed.

(** X9.  End to end: when [main] returns, there is exactly one delivery
    attempt, and for every item of a requested page whose trimmed link text
    passes the title filter, the entry of its posting occurs in the message
    of that attempt. *)
Theorem accepted_items_are_mailed w fuel tr i s :
  run fuel w = (Returned tt, tr) ->
  i < length (requests tr) ->
  In s (pageItems w i) ->
  titleFilter (strings.TrimSpace (Text s)) = true ->
  exists e,
    mails tr = [e]
    /\ Substring (jobEntry (postingOf s)) (messageOf e).
Proof.
  intros Hrun Hi Hs Hf. unfold run in Hrun.
  destruct (loop fuel w 1 [] []) as [[allJobs|code|] tr1] eqn:E.
  - rewrite (main_returned fuel w [] allJobs tr1 E) in Hrun.
    assert (Htr0 : tr = tr1 ++ report allJobs ++ [mailEvent w allJobs])
      by congruence.
    clear Hrun. subst tr.
    destruct (loop_start_shape w fuel) as (m & _ & _ & _ & Hshape).
    rewrite E in Hshape. unfold loopOutcome in Hshape.
    destruct Hshape as (_ & (note & Hnote & Htr) & Hjobs).
    rewrite app_nil_l in Htr. rewrite app_nil_l in Hjobs.
    assert (Hreq : length (requests (tr1 ++ report allJobs
                                       ++ [mailEvent w allJobs])) = S m).
    { rewrite Htr, <- app_assoc, requests_app, length_app,
        length_requests_fetchesFrom, !requests_app,
        (proj1 (output_only_report allJobs)).
      destruct Hnote as [->| ->]; simpl; lia. }
    rewrite Hreq in Hi.
    assert (Hm : mails (tr1 ++ report allJobs ++ [mailEvent w allJobs])
                 = [mailEvent w allJobs]).
    { rewrite Htr, <- app_assoc, mails_app, mails_fetchesFrom, !mails_app,
        (proj2 (output_only_report allJobs)).
      destruct Hnote as [->| ->]; reflexivity. }
    exists (mailEvent w allJobs). split; [exact Hm|].
    apply Substring_body_message. apply entry_in_body.
    rewrite Hjobs. apply in_flat_map. exists i. split.
    + apply in_seq. lia.
    + now apply In_pagePostings_of.
  - rewrite (main_exited fuel w [] code tr1 E) in Hrun. discriminate.
  - unfold main, bind in Hrun. rewrite E in Hrun. discriminate.
Qed.

Lemma accepted_items_are_mailed_witness :
  run 2 exampleWorld = (Returned tt, snd (run 2 exampleWorld))
  /\ 1 < length (requests (snd (run 2 exampleWorld)))
  /\ In (listed "Software Engineer, Trust" "/positions/11")
        (pageItems exampleWorld 1)
  /\ titleFilter
       (strings.TrimSpace
          (Text (listed "Software Engineer, Trust" "/positions/11"))) = true
  /\ exists e,
       mails (snd (run 2 exampleWorld)) = [e]
       /\ Substring
            (jobEntry (postingOf (listed "Software Engineer, Trust"
                                         "/positions/11")))
            (messageOf e).
Proof.
  assert (H1 : run 2 exampleWorld = (Returned tt, snd (run 2 exampleWorld)))
    by reflexivity.
  assert (H2 : 1 < length (requests (snd (run 2 exampleWorld))))
    by (vm_compute; lia).
  assert (H3 : In (listed "Software Engineer, Trust" "/positions/11")
                  (pageItems exampleWorld 1)) by (left; reflexivity).
  assert (H4 : titleFilter
                 (strings.TrimSpace
                    (Text (listed "Software Engineer, Trust" "/positions/11")))
               = true) by reflexivity.
  split; [exact H1|]. split; [exact H2|]. split; [exact H3|].
  split; [exact H4|].
  exact (accepted_items_are_mailed exampleWorld 2 _ 1 _ H1 H2 H3 H4).
Defined.

(** ** What [TrimSpace] removes *)

Section RemovedBytes.

Open Scope Z_scope.

Ltac decode_first b :=
  unfold utf8.first;
  destruct (b <? 128) eqn:?; [|
  destruct (b <? 194) eqn:?; [|
  destruct (b <? 224) eqn:?; [|
  destruct (b =? 224) eqn:?; [|
  destruct (b <? 237) eqn:?; [|
  destruct (b =? 237) eqn:?; [|
  destruct (b <? 240) eqn:?; [|
  destruct (b =? 240) eqn:?; [|
  destruct (b <? 244) eqn:?; [|
  destruct (b =? 244) eqn:?]]]]]]]]];
  unfold utf8.as_, utf8.xx, utf8.s1, utf8.s2, utf8.s3, utf8.s4, utf8.s5,
    utf8.s6, utf8.s7.

Ltac decode_table :=
  repeat match goal with
  | |- context [Z.to_nat (Z.land ?x 7)] =>
      let v := eval vm_compute in (Z.to_nat (Z.land x 7)) in
      change (Z.to_nat (Z.land x 7)) with v
  | |- context [utf8.acceptRanges (Z.shiftr ?x 4)] =>
      let v := eval vm_compute in (utf8.acceptRanges (Z.shiftr x 4)) in
      change (utf8.acceptRanges (Z.shiftr x 4)) with v
  | |- context [240 <=? ?x] =>
      let v := eval vm_compute in (240 <=? x) in
      change (240 <=? x) with v
  | |- context [?x =? 241] =>
      let v := eval vm_compute in (x =? 241) in
      change (x =? 241) with v
  end.

Ltac decode_if :=
  match goal with
  | |- context [if ?b then _ else _] => destruct b eqn:?
  end.

Ltac decode_simpl :=
  cbn [length app Nat.ltb Nat.leb nth fst snd firstn utf8.locb utf8.hicb].

Ltac bounds :=
  repeat match goal with
  | H : (_ || _) = false |- _ =>
      apply orb_false_iff in H; destruct H
  | H : (_ <? _) = false |- _ => apply Z.ltb_ge in H
  | H : (_ <? _) = true |- _ => apply Z.ltb_lt in H
  | H : (_ =? _) = true |- _ => apply Z.eqb_eq in H
  | H : (_ =? _) = false |- _ => apply Z.eqb_neq in H
  end.

(** The bytes of a sequence that decodes to a rune of two bytes or more are
    not ASCII. *)
Lemma Decode_wide_bytes s :
  (2 <= snd (utf8.DecodeRuneInString s))%nat ->
  Forall (fun c => 128 <= byteZ c)
         (firstn (snd (utf8.DecodeRuneInString s)) s).
Proof.
  destruct s as [|c0 t]; [simpl; lia|].
  unfold utf8.DecodeRuneInString, byteAt. decode_simpl.
  decode_first (byteZ c0); decode_table; decode_simpl; try lia.
  all: destruct t as [|c1 [|c2 [|c3 t]]]; decode_simpl; try lia;
    repeat (decode_if; decode_simpl; try lia).
  all: intros _; bounds; unfold utf8.locb, utf8.hicb in *;
    cbn [fst snd] in *;
    repeat (apply Forall_cons; [lia|]); apply Forall_nil.
Qed.

Lemma blank_of_high c : 128 <= byteZ c -> blankByte c = true.
Proof.
  intros H. unfold blankByte. apply orb_true_iff. right. now apply Z.leb_le.
Qed.

Lemma Forall_high_blank l :
  Forall (fun c => 128 <= byteZ c) l -> Forall (fun c => blankByte c = true) l.
Proof. apply Forall_impl. exact blank_of_high. Qed.

(** The bytes of a white space rune at the start of a string are blank. *)
Lemma Decode_space_bytes s :
  unicode.IsSpace (fst (utf8.DecodeRuneInString s)) = true ->
  Forall (fun c => blankByte c = true)
         (firstn (snd (utf8.DecodeRuneInString s)) s).
Proof.
  intros H. destruct s as [|c s]; [constructor|].
  destruct (Z.lt_ge_cases (byteZ c) 128) as [Hc|Hc].
  - rewrite Decode_ascii in * by assumption. simpl in *.
    rewrite IsSpace_ascii in H by assumption.
    constructor; [|constructor]. unfold blankByte. now rewrite H.
  - pose proof (Decode_size (c :: s) ltac:(discriminate)) as Hsize.
    destruct (Nat.eq_dec (snd (utf8.DecodeRuneInString (c :: s))) 1) as [E|E].
    + rewrite E. simpl. constructor; [|constructor]. now apply blank_of_high.
    + apply Forall_high_blank, Decode_wide_bytes. lia.
Qed.

Lemma lastRune_space_bytes w r :
  lastRune w r -> unicode.IsSpace r = true ->
  Forall (fun c => blankByte c = true) w.
Proof.
  intros [c -> Hc -> | c -> Hc -> | Hlen D] Hr.
  - rewrite IsSpace_ascii in Hr by assumption.
    constructor; [|constructor]. unfold blankByte. now rewrite Hr.
  - discriminate Hr.
  - pose proof (Decode_space_bytes w) as H. rewrite D in H. simpl in H.
    rewrite firstn_all in H. now apply H.
Qed.

End RemovedBytes.

Lemma indexFunc_from_blank fuel :
  forall rest i,
    length rest <= fuel ->
    match strings.indexFunc_from fuel rest i unicode.IsSpace false with
    | None => Forall (fun c => blankByte c = true) rest
    | Some j =>
        exists d, j = i + d
                  /\ Forall (fun c => blankByte c = true) (firstn d rest)
    end.
Proof.
  induction fuel as [|fuel IH]; intros rest i Hlen; simpl.
  - destruct rest; [constructor | simpl in Hlen; lia].
  - destruct rest as [|c rest']; [constructor|].
    set (rest := c :: rest') in *.
    pose proof (Decode_space_bytes rest) as Hsp.
    pose proof (Decode_size rest ltac:(discriminate)) as Hsize.
    destruct (utf8.DecodeRuneInString rest) as [r size]. cbn [fst snd] in Hsp, Hsize.
    rewrite eqb_false_r.
    destruct (unicode.IsSpace r) eqn:Hf; simpl.
    + specialize (Hsp eq_refl).
      assert (Hl : length (skipn size rest) <= fuel).
      { rewrite length_skipn. change (length rest <= S fuel) in Hlen. lia. }
      specialize (IH (skipn size rest) (i + size) Hl).
      assert (Hsplit : rest = firstn size rest ++ skipn size rest)
        by (symmetry; apply firstn_skipn).
      assert (Hfl : length (firstn size rest) = size)
        by (rewrite length_firstn; lia).
      destruct (strings.indexFunc_from fuel (skipn size rest) (i + size)
                  unicode.IsSpace false) as [j|].
      * destruct IH as (d & -> & Hd). exists (size + d). split; [lia|].
        rewrite Hsplit. rewrite <- Hfl at 1. rewrite firstn_app_2.
        apply Forall_app. split; assumption.
      * rewrite Hsplit. apply Forall_app. split; assumption.
    + exists 0. split; [lia|constructor].
Qed.

Lemma TrimLeftFunc_removed s :
  exists head,
    s = head ++ strings.TrimLeftFunc s unicode.IsSpace
    /\ Forall (fun c => blankByte c = true) head.
Proof.
  unfold strings.TrimLeftFunc, strings.indexFunc.
  pose proof (indexFunc_from_blank (length s) s 0 (le_n _)) as H.
  destruct (strings.indexFunc_from (length s) s 0 unicode.IsSpace false)
    as [j|].
  - destruct H as (d & -> & Hd). simpl. exists (firstn d s).
    split; [now rewrite firstn_skipn | exact Hd].
  - exists s. split; [now rewrite app_nil_r | exact H].
Qed.

Lemma lastIndexFunc_upto_blank fuel :
  forall p,
    length p <= fuel ->
    match strings.lastIndexFunc_upto fuel p unicode.IsSpace false with
    | None => Forall (fun c => blankByte c = true) p
    | Some i =>
        exists front w spaces r,
          p = front ++ w ++ spaces /\ i = length front
          /\ lastRune w r /\ startsRune spaces
          /\ Forall (fun c => blankByte c = true) spaces
    end.
Proof.
  induction fuel as [|fuel IH]; intros p Hp; simpl.
  - destruct p; [constructor | simpl in Hp; lia].
  - destruct p as [|c p']; [constructor|].
    set (p := c :: p') in *.
    destruct (DecodeLast_split p) as (front & w & r & Hsplit & D & Hw);
      [discriminate|].
    rewrite D.
    assert (Hlw : 1 <= length w).
    { destruct Hw as [? -> | ? -> |]; simpl; lia. }
    assert (Hi : length p - length w = length front).
    { rewrite Hsplit at 1. rewrite length_app. lia. }
    rewrite Hi, eqb_false_r.
    destruct (unicode.IsSpace r) eqn:Hf; simpl.
    + assert (Hfront : firstn (length front) p = front).
      { rewrite Hsplit. apply firstn_length_app. }
      rewrite Hfront.
      assert (Hlen : length front <= fuel).
      { apply (f_equal (@length ascii)) in Hsplit.
        rewrite length_app in Hsplit. change (length p <= S fuel) in Hp. lia. }
      pose proof (lastRune_space_bytes w r Hw Hf) as Hblank.
      specialize (IH front Hlen).
      destruct (strings.lastIndexFunc_upto fuel front unicode.IsSpace false)
        as [i|].
      * destruct IH as (front' & w' & spaces' & r' & E & -> & Hw' & Hs' & Hb').
        exists front', w', (spaces' ++ w), r'. repeat split; auto.
        -- rewrite Hsplit, E. now rewrite <- !app_assoc.
        -- destruct spaces' as [|c' sp]; [|exact Hs'].
           simpl. rewrite <- (app_nil_r w).
           apply startsRune_lastRune with (r := r); [exact Hw|].
           intros ->. discriminate Hf.
        -- apply Forall_app. split; assumption.
      * rewrite Hsplit. apply Forall_app. split; assumption.
    + exists front, w, [], r. rewrite app_nil_r, <- Hsplit.
      repeat split; auto.
Qed.

(** The end that [TrimRightFunc] computes from the index of the last rune to
    keep is the end of that rune. *)
Lemma TrimRightFunc_at f s front w spaces r :
  s = front ++ w ++ spaces ->
  strings.lastIndexFunc s f false = Some (length front) ->
  lastRune w r -> startsRune spaces ->
  strings.TrimRightFunc s f = front ++ w.
Proof.
  intros E Hidx Hw Hs. unfold strings.TrimRightFunc. rewrite Hidx.
  assert (Hres : forall n, n = length w ->
                           firstn (length front + n) s = front ++ w).
  { intros n ->. rewrite E, app_assoc, <- length_app.
    apply firstn_length_app. }
  assert (Hskip : skipn (length front) s = w ++ spaces).
  { rewrite E. apply skipn_length_app. }
  rewrite Hskip.
  destruct Hw as [c -> Hc _ | c -> Hc _ | Hlen Dw].
  - replace (byteAt s (length front)) with (byteZ c)
      by (rewrite E; symmetry; apply byteAt_app_length).
    unfold utf8.RuneSelf.
    replace (128 <=? byteZ c)%Z with false
      by (symmetry; apply Z.leb_gt; lia).
    now apply Hres.
  - replace (byteAt s (length front)) with (byteZ c)
      by (rewrite E; symmetry; apply byteAt_app_length).
    unfold utf8.RuneSelf.
    replace (128 <=? byteZ c)%Z with true
      by (symmetry; apply Z.leb_le; lia).
    simpl app. rewrite Decode_high_alone by assumption.
    now apply Hres.
  - destruct w as [|c w]; [simpl in Hlen; lia|].
    replace (byteAt s (length front)) with (byteZ c)
      by (rewrite E; symmetry; apply byteAt_app_length).
    unfold utf8.RuneSelf.
    assert (Hc : (194 <= byteZ c <= 244)%Z).
    { apply (Decode_wide c w). rewrite Dw. exact Hlen. }
    replace (128 <=? byteZ c)%Z with true
      by (symmetry; apply Z.leb_le; lia).
    destruct (Decode_app (c :: w) spaces) as [Ha|Ha]; [discriminate| |].
    + rewrite Ha, Dw. now apply Hres.
    + rewrite Dw in Ha. injection Ha as _ Ha. simpl in Hlen, Ha. lia.
Qed.

Lemma TrimRightFunc_removed s :
  exists tail,
    s = strings.TrimRightFunc s unicode.IsSpace ++ tail
    /\ Forall (fun c => blankByte c = true) tail.
Proof.
  pose proof (lastIndexFunc_upto_blank (length s) s (le_n _)) as H.
  destruct (strings.lastIndexFunc_upto (length s) s unicode.IsSpace false)
    as [i|] eqn:Hidx.
  - destruct H as (front & w & spaces & r & E & -> & Hw & Hs & Hb).
    rewrite (TrimRightFunc_at unicode.IsSpace s front w spaces r E Hidx Hw Hs).
    exists spaces. split; [now rewrite <- app_assoc | exact Hb].
  - unfold strings.TrimRightFunc, strings.lastIndexFunc. rewrite Hidx.
    exists s. split; [reflexivity | exact H].
Qed.

Lemma skipAsciiSpace_removed s :
  exists skipped,
    s = skipped ++ fst (strings.skipAsciiSpace s)
    /\ Forall (fun c => blankByte c = true) skipped.
Proof.
  induction s as [|c s (skipped & IH & Hb)]; simpl.
  - exists []. split; [reflexivity|constructor].
  - destruct (utf8.RuneSelf <=? byteZ c)%Z; simpl.
    + exists []. split; [reflexivity|constructor].
    + destruct (strings.asciiSpace (byteZ c)) eqn:Ha; simpl.
      * exists (c :: skipped). split; [simpl; now rewrite <- IH|].
        constructor; [|exact Hb]. unfold blankByte. now rewrite Ha.
      * exists []. split; [reflexivity|constructor].
Qed.

Lemma Forall_blank_rev l :
  Forall (fun c => blankByte c = true) l ->
  Forall (fun c => blankByte c = true) (rev l).
Proof. apply Forall_rev. Qed.

Lemma TrimSpace_removed s :
  exists before after,
    s = before ++ strings.TrimSpace s ++ after
    /\ Forall (fun c => blankByte c = true) before
    /\ Forall (fun c => blankByte c = true) after.
Proof.
  unfold strings.TrimSpace.
  destruct (skipAsciiSpace_removed s) as (skipped & E & Hb).
  destruct (strings.skipAsciiSpace s) as [from_start flag1]. simpl in E.
  destruct flag1.
  - unfold strings.TrimFunc.
    destruct (TrimLeftFunc_removed from_start) as (head & Eh & Hh).
    destruct (TrimRightFunc_removed
                (strings.TrimLeftFunc from_start unicode.IsSpace))
      as (tail & Et & Ht).
    exists (skipped ++ head), tail. split; [|split].
    + rewrite E, Eh at 1. rewrite Et at 1. now rewrite <- !app_assoc.
    + apply Forall_app. split; assumption.
    + exact Ht.
  - destruct (skipAsciiSpace_removed (rev from_start)) as (skipped' & E' & Hb').
    destruct (strings.skipAsciiSpace (rev from_start)) as [upto_stop flag2].
    simpl in E'.
    assert (E2 : from_start = rev upto_stop ++ rev skipped').
    { rewrite <- rev_app_distr, <- E'. now rewrite rev_involutive. }
    apply Forall_blank_rev in Hb'.
    destruct flag2.
    + destruct (TrimRightFunc_removed (rev upto_stop)) as (tail & Et & Ht).
      exists skipped, (tail ++ rev skipped'). split; [|split].
      * rewrite E, E2 at 1. rewrite Et at 1. now rewrite <- !app_assoc.
      * exact Hb.
      * apply Forall_app. split; assumption.
    + exists skipped, (rev skipped'). split; [|split]; auto.
      now rewrite E, E2 at 1.
Qed.

(** X10.  [TrimSpace] gives a contiguous part of its argument, and every
    byte that it leaves out, before or after, is an ASCII white space byte
    or a byte that is not ASCII: letters, digits and punctuation of ASCII
    are never removed. *)
Theorem TrimSpace_removes_blanks s :
  exists before after,
    s = before ++ strings.TrimSpace s ++ after
    /\ Forall (fun c => blankByte c = true) before
    /\ Forall (fun c => blankByte c = true) after.
Proof. apply TrimSpace_removed. Qed.

Lemma blank_prefix_skip pre :
  forall rest before c more,
    Forall (fun c => blankByte c = true) pre ->
    blankByte c = false ->
    pre ++ rest = before ++ c :: more ->
    exists before', before = pre ++ before' /\ rest = before' ++ c :: more.
Proof.
  induction pre as [|b pre IH]; intros rest before c more Hb Hc E.
  - now exists before.
  - inversion Hb as [|? ? Hb1 Hb2]; subst.
    destruct before as [|b' before]; simpl in E; injection E as -> E.
    + congruence.
    + destruct (IH rest before c more Hb2 Hc E) as (before' & -> & ->).
      now exists before'.
Qed.

Lemma blank_suffix_skip post rest more c after :
  Forall (fun c => blankByte c = true) post ->
  blankByte c = false ->
  rest ++ post = more ++ c :: after ->
  exists after', after = after' ++ post /\ rest = more ++ c :: after'.
Proof.
  intros Hb Hc E. apply (f_equal (@rev ascii)) in E.
  rewrite !rev_app_distr in E. simpl in E. rewrite <- app_assoc in E.
  simpl in E.
  destruct (blank_prefix_skip (rev post) (rev rest) (rev after) c (rev more)
              (Forall_rev Hb) Hc E) as (x & Hx & Hr).
  exists (rev x). split.
  - apply (f_equal (@rev ascii)) in Hx.
    rewrite rev_app_distr, !rev_involutive in Hx. exact Hx.
  - apply (f_equal (@rev ascii)) in Hr.
    rewrite rev_app_distr, rev_involutive in Hr. simpl in Hr.
    rewrite rev_involutive, <- app_assoc in Hr. exact Hr.
Qed.

Lemma solidEnds_ends term :
  solidEnds term = true ->
  exists c1 t1 t2 c2,
    term = c1 :: t1 /\ term = t2 ++ [c2]
    /\ blankByte c1 = false /\ blankByte c2 = false.
Proof.
  unfold solidEnds. destruct term as [|c1 t1]; [discriminate|].
  destruct (rev (c1 :: t1)) as [|c2 r] eqn:E; [discriminate|].
  intros H. apply andb_true_iff in H as [H1 H2].
  apply negb_true_iff in H1, H2.
  exists c1, t1, (rev r), c2. repeat split; auto.
  apply (f_equal (@rev ascii)) in E. rewrite rev_involutive in E. exact E.
Qed.

Lemma Substring_inside term pre text post :
  solidEnds term = true ->
  Forall (fun c => blankByte c = true) pre ->
  Forall (fun c => blankByte c = true) post ->
  Substring term (pre ++ text ++ post) <-> Substring term text.
Proof.
  intros Hsolid Hpre Hpost. split.
  - intros (before & after & E).
    destruct (solidEnds_ends term Hsolid)
      as (c1 & t1 & t2 & c2 & E1 & E2 & H1 & H2).
    rewrite E1 in E.
    destruct (blank_prefix_skip pre (text ++ post) before c1 (t1 ++ after)
                Hpre H1 E) as (before' & -> & E').
    change (before' ++ c1 :: t1 ++ after)
      with (before' ++ (c1 :: t1) ++ after) in E'.
    rewrite <- E1, E2 in E'.
    assert (E3 : text ++ post = (before' ++ t2) ++ c2 :: after)
      by (rewrite E'; now rewrite <- !app_assoc).
    destruct (blank_suffix_skip post text (before' ++ t2) c2 after
                Hpost H2 E3) as (after' & -> & ->).
    exists before', after'. rewrite E2. now rewrite <- !app_assoc.
  - intros (before & after & ->).
    exists (pre ++ before), (after ++ post). now rewrite <- !app_assoc.
Qed.

Lemma Contains_TrimSpace term s :
  solidEnds term = true ->
  strings.Contains (strings.TrimSpace s) term = strings.Contains s term.
Proof.
  intros Hsolid.
  destruct (TrimSpace_removed s) as (before & after & E & Hb & Ha).
  apply eq_true_iff_eq. rewrite !Contains_iff. rewrite E at 2.
  symmetry. now apply Substring_inside.
Qed.

(** X11.  The title filter decides the same on the trimmed title as on the
    link text as found on the page: trimming changes which title is stored,
    not whether the posting is kept. *)
Theorem titleFilter_TrimSpace text :
  titleFilter (strings.TrimSpace text) = titleFilter text.
Proof.
  unfold titleFilter. now rewrite !Contains_TrimSpace by reflexivity.
Qed.

Lemma TrimLeftFunc_fixed q :
  q <> [] ->
  unicode.IsSpace (fst (utf8.DecodeRuneInString q)) = false ->
  strings.TrimLeftFunc q unicode.IsSpace = q.
Proof.
  intros Hq H. unfold strings.TrimLeftFunc, strings.indexFunc.
  destruct q as [|c q]; [congruence|]. cbn [length strings.indexFunc_from].
  destruct (utf8.DecodeRuneInString (c :: q)) as [r size]. simpl in H.
  rewrite H. reflexivity.
Qed.

Lemma lastIndexFunc_upto_step fuel p f truth :
  p <> [] ->
  strings.lastIndexFunc_upto (S fuel) p f truth
  = let '(r, size) := utf8.DecodeLastRuneInString p in
    if Bool.eqb (f r) truth then Some (length p - size)
    else strings.lastIndexFunc_upto fuel (firstn (length p - size) p) f truth.
Proof. destruct p; [congruence | reflexivity]. Qed.

Lemma TrimRightFunc_fixed q :
  q <> [] ->
  unicode.IsSpace (fst (utf8.DecodeLastRuneInString q)) = false ->
  strings.TrimRightFunc q unicode.IsSpace = q.
Proof.
  intros Hq H.
  destruct (DecodeLast_split q Hq) as (front & w & r & Hsplit & D & Hw).
  rewrite D in H. simpl in H.
  assert (Hidx : strings.lastIndexFunc q unicode.IsSpace false
                 = Some (length front)).
  { unfold strings.lastIndexFunc.
    destruct (length q) as [|n] eqn:Hn.
    { apply length_zero_iff_nil in Hn. congruence. }
    rewrite lastIndexFunc_upto_step by exact Hq. rewrite D, H. simpl.
    f_equal. rewrite Hsplit at 1. rewrite length_app. lia. }
  rewrite (TrimRightFunc_at unicode.IsSpace q front w [] r); auto.
  - now rewrite app_nil_r.
  - exact I.
Qed.

Lemma skipAsciiSpace_stops c s :
  strings.asciiSpace (byteZ c) = false ->
  (byteZ c < 128)%Z ->
  strings.skipAsciiSpace (c :: s) = (c :: s, false).
Proof.
  intros Ha Hc. simpl. unfold utf8.RuneSelf.
  replace (128 <=? byteZ c)%Z with false by (symmetry; apply Z.leb_gt; lia).
  now rewrite Ha.
Qed.

Lemma skipAsciiSpace_high c s :
  (128 <= byteZ c)%Z -> strings.skipAsciiSpace (c :: s) = (c :: s, true).
Proof.
  intros Hc. simpl. unfold utf8.RuneSelf.
  now replace (128 <=? byteZ c)%Z with true by (symmetry; apply Z.leb_le; lia).
Qed.

Lemma TrimSpace_fixed q : noSpaceAtEnds q -> strings.TrimSpace q = q.
Proof.
  intros [->|[Hd Hl]]; [reflexivity|].
  destruct q as [|c q]; [reflexivity|].
  unfold strings.TrimSpace.
  destruct (Z.lt_ge_cases (byteZ c) 128) as [Hc|Hc].
  - rewrite Decode_ascii in Hd by assumption. simpl in Hd.
    rewrite IsSpace_ascii in Hd by assumption.
    rewrite skipAsciiSpace_stops by assumption.
    destruct (rev (c :: q)) as [|d r] eqn:Er.
    { apply (f_equal (@rev ascii)) in Er. rewrite rev_involutive in Er.
      discriminate. }
    assert (Eq : c :: q = rev r ++ [d]).
    { apply (f_equal (@rev ascii)) in Er. now rewrite rev_involutive in Er. }
    destruct (Z.lt_ge_cases (byteZ d) 128) as [Hdd|Hdd].
    + rewrite Eq, DecodeLast_ascii in Hl by assumption. simpl in Hl.
      rewrite IsSpace_ascii in Hl by assumption.
      rewrite skipAsciiSpace_stops by assumption.
      now rewrite <- Er, rev_involutive.
    + rewrite skipAsciiSpace_high by assumption.
      rewrite <- Er, rev_involutive.
      apply TrimRightFunc_fixed; [discriminate | exact Hl].
  - rewrite skipAsciiSpace_high by assumption. unfold strings.TrimFunc.
    rewrite TrimLeftFunc_fixed; [|discriminate|exact Hd].
    apply TrimRightFunc_fixed; [discriminate | exact Hl].
Qed.

(** X12.  Trimming a trimmed title changes nothing. *)
Theorem TrimSpace_idempotent s :
  strings.TrimSpace (strings.TrimSpace s) = strings.TrimSpace s.
Proof. apply TrimSpace_fixed, TrimSpace_spec. Qed.
